(** * python-in-deep: the retry decorator and the generator pipeline

    A shallow embedding of
    [04.Advanced-Features-Decorators-Generators/advanced_patterns.py]:

    - [Retry]: the parameterized decorator [retry(max_attempts, delay)].
      The decorated function is effectful, so it is a state transformer
      over the part of the world it can reach; the wrapper records every
      invocation, every [logging] call and every [time.sleep] in a trace.
    - [Pipeline]: the generators [read_large_file], [filter_logs] and
      [search_logs].  Generator objects live in a store and refer to their
      upstream by location, as Python iterators do.

    and of [02.Data-Model-Dunder-Methods/dunder_protocol_demo.py]:

    - [DataModel]: the classes [ImmutableConfig] and [CustomCollection],
      over a heap of instance dictionaries, the class registry and the
      printed output. *)

From Stdlib Require Import ZArith Lia.
From stdpp Require Import base strings list sorting gmap pretty.
From Equations Require Import Equations.

Local Open Scope Z_scope.

(** ** Exceptions and outcomes *)

(** A Python exception, as far as the code looks at it: the names of its
    class and of the classes it inherits from, and [str(e)]. *)
Record exception := Exception {
  exc_mro : list string;
  exc_str : string
}.

(** Whether [except ConnectionError] catches it. *)
Definition is_ConnectionError (e : exception) : bool :=
  bool_decide ("ConnectionError" ∈ exc_mro e).

(** What a call does: it returns a value or raises. *)
Inductive outcome (V : Type) : Type :=
| Returned (v : V)
| Raised (e : exception).
Arguments Returned {V} v.
Arguments Raised {V} e.

(** The built-in exceptions met below. *)
Definition ConnectionError (msg : string) : exception :=
  {| exc_mro := ["ConnectionError"; "OSError"; "Exception"; "BaseException"; "object"];
     exc_str := msg |}.

Definition BrokenPipeError (msg : string) : exception :=
  {| exc_mro := ["BrokenPipeError"; "ConnectionError"; "OSError"; "Exception";
                 "BaseException"; "object"];
     exc_str := msg |}.

Definition KeyError (key : string) : exception :=
  {| exc_mro := ["KeyError"; "LookupError"; "Exception"; "BaseException"; "object"];
     exc_str := "'" +:+ key +:+ "'" |}.

(** What [time.sleep] raises when it refuses its argument. *)
Definition sleep_ValueError : exception :=
  {| exc_mro := ["ValueError"; "Exception"; "BaseException"; "object"];
     exc_str := "sleep length must be non-negative" |}.

Module Retry.

(** The decorated function: its [__name__] and what calling it does to
    the state it can reach. *)
Record callable (A St V : Type) := Callable {
  __name__ : string;
  call : A -> St -> outcome V * St
}.
Arguments Callable {A St V} _ _.
Arguments __name__ {A St V} _.
Arguments call {A St V} _ _ _.

(** What the wrapper does that can be seen from outside, in order. *)
Inductive event (V D : Type) : Type :=
| Invoked (r : outcome V)        (* one call of func, and how it ended *)
| LogWarning (msg : string)      (* logging.warning(msg) *)
| LogError (msg : string)        (* logging.error(msg) *)
| Slept (d : D).                 (* time.sleep(d) returned *)
Arguments Invoked {V D} r.
Arguments LogWarning {V D} msg.
Arguments LogError {V D} msg.
Arguments Slept {V D} d.

Section Decorator.
Context {A St V D : Type}.

(** [delay] is a float; the code only formats it and hands it to
    [time.sleep], which raises [ValueError] on a negative number. *)
Variable str_delay : D -> string.
Variable sleep_rejects : D -> bool.

Variable max_attempts : Z.
Variable delay : D.
Variable func : callable A St V.

Definition warning_text (attempts_left : Z) (e : exception) : string :=
  "[retry] " +:+ __name__ func +:+ " failed (attempts left: "
    +:+ pretty attempts_left +:+ ", error: " +:+ exc_str e
    +:+ "). Retrying in " +:+ str_delay delay +:+ " sec...".

Definition error_text (e : exception) : string :=
  "[retry] " +:+ __name__ func +:+ " failed after "
    +:+ pretty max_attempts +:+ " attempts. Last error: " +:+ exc_str e.

Definition run : Type := outcome (option V) * St * list (event V D).

(** The [while attempts_left > 0] loop of [wrapper], entered with the
    current [attempts_left].  [Returned None] is the function running
    off its end. *)
Equations? wrapper_loop (args : A) (attempts_left : Z) (s : St) : run
  by wf (Z.to_nat attempts_left) lt :=
wrapper_loop args attempts_left s :=
  match Z_gt_dec attempts_left 0 with
  | right _ => (Returned None, s, [])
  | left _ =>
    match call func args s with
    | (Returned v, s1) => (Returned (Some v), s1, [Invoked (Returned v)])
    | (Raised e, s1) =>
      if is_ConnectionError e then
        match Z_gt_dec (attempts_left - 1) 0 with
        | left _ =>
          if sleep_rejects delay then
            (Raised sleep_ValueError, s1,
             [Invoked (Raised e); LogWarning (warning_text (attempts_left - 1) e)])
          else
            let '(r, s2, t) := wrapper_loop args (attempts_left - 1) s1 in
            (r, s2,
             Invoked (Raised e) :: LogWarning (warning_text (attempts_left - 1) e)
               :: Slept delay :: t)
        | right _ =>
          (Raised e, s1, [Invoked (Raised e); LogError (error_text e)])
        end
      else (Raised e, s1, [Invoked (Raised e)])
    end
  end.
Proof. lia. Qed.

(** Counting what a trace holds. *)
Definition is_invocation (ev : event V D) : bool :=
  match ev with Invoked _ => true | _ => false end.
Definition is_warning (ev : event V D) : bool :=
  match ev with LogWarning _ => true | _ => false end.
Definition is_error (ev : event V D) : bool :=
  match ev with LogError _ => true | _ => false end.
Definition is_pause (ev : event V D) : bool :=
  match ev with Slept _ => true | _ => false end.

Definition invocations (t : list (event V D)) : nat :=
  length (List.filter is_invocation t).
Definition warnings (t : list (event V D)) : nat :=
  length (List.filter is_warning t).
Definition errors (t : list (event V D)) : nat :=
  length (List.filter is_error t).
Definition pauses (t : list (event V D)) : nat :=
  length (List.filter is_pause t).

(** How the last invocation recorded in a trace ended. *)
Fixpoint last_outcome (t : list (event V D)) : option (outcome V) :=
  match t with
  | [] => None
  | ev :: t' =>
    match last_outcome t' with
    | Some r => Some r
    | None => match ev with Invoked r => Some r | _ => None end
    end
  end.

Definition wrapper (args : A) (s : St) : run :=
  wrapper_loop args max_attempts s.

(** [decorator(func)]: [functools.wraps] copies [__name__]. *)
Definition decorator : callable A (St * list (event V D)) (option V) :=
  {| __name__ := __name__ func;
     call := fun args '(s, log) =>
               let '(r, s', t) := wrapper args s in (r, (s', log ++ t)) |}.




(** Started in state [s], [func] raises a [ConnectionError] on exactly
    its first [k] calls and something [except ConnectionError] does not
    catch, [e], on the next one. *)
Fixpoint fails_then_raises (args : A) (k : nat) (e : exception) (s : St)
  : Prop :=
  match k with
  | O => exists s', call func args s = (Raised e, s')
           /\ is_ConnectionError e = false
  | S k' => exists e' s', call func args s = (Raised e', s')
              /\ is_ConnectionError e' = true
              /\ fails_then_raises args k' e s'
  end.

(** The state [n] calls of [func] with the same arguments lead to. *)
Fixpoint state_after (args : A) (n : nat) (s : St) : St :=
  match n with
  | O => s
  | S n' => state_after args n' (call func args s).2
  end.

(** How [return func(...)] hands on what [func] did. *)
Definition passed_on (o : outcome V) : outcome (option V) :=
  match o with
  | Returned v => Returned (Some v)
  | Raised e => Raised e
  end.

End Decorator.

(** [retry(max_attempts, delay)(func)], the callable that [@retry(...)]
    binds to the name of [func]. *)
Definition retry {A St V D : Type} (str_delay : D -> string)
    (sleep_rejects : D -> bool) (max_attempts : Z) (delay : D)
    (func : callable A St V)
  : callable A (St * list (event V D)) (option V) :=
  decorator str_delay sleep_rejects max_attempts delay func.

(** The demo's [flaky_network_call]: [counter] is a dict shared with the
    caller, so its ['failures'] entry is the state the calls go through. *)
Definition flaky_network_call : callable unit (gmap string Z) string :=
  {| __name__ := "flaky_network_call";
     call := fun _ counter =>
       match counter !! "failures" with
       | None => (Raised (KeyError "failures"), counter)
       | Some n =>
         if bool_decide (n > 0)
         then (Raised (ConnectionError "Network down!"),
               <["failures" := n - 1]> counter)
         else (Returned "Success!", counter)
       end |}.

(** Delays given as whole seconds: [str] of a Python int, and
    [time.sleep] refusing the negative ones. *)
Definition str_seconds (d : Z) : string := pretty d.
Definition sleep_rejects_seconds (d : Z) : bool := bool_decide (d < 0).

End Retry.

(** * The generator pipeline *)

Module Pipeline.

(** [needle in line] on Python strings: [needle] starts at some position
    of [line]. *)
Fixpoint str_contains (needle line : string) : bool :=
  String.prefix needle line
  || match line with
     | EmptyString => false
     | String _ rest => str_contains needle rest
     end.

(** The line [read_large_file] builds for index [i]. *)
Definition logline (i : Z) : string :=
  "logline " +:+ pretty i +:+ " - status=OK".

(** Iterator objects live in a store and are named by their location; a
    stage holds the location of its upstream, not a copy of it. *)
Abbreviation loc := nat.

Inductive iterator : Type :=
| ListIterator (items : list string) (pos : nat)
    (* iter(items), about to read items[pos] *)
| ReadLargeFile (i num_lines : Z)
    (* read_large_file(num_lines), about to test index i of its range *)
| FilterLogs (lines : loc) (status : string)
    (* filter_logs(lines, status), inside its for loop *)
| SearchLogs (lines : loc) (needle : string)
    (* search_logs(lines, needle), inside its for loop *)
| Exhausted.
    (* a generator whose body has returned *)

Abbreviation store := (list iterator).

Definition alloc (it : iterator) (st : store) : loc * store :=
  (length st, st ++ [it]).

(** Calling a generator function runs none of its body: it only makes the
    generator object. *)
Definition iter_list (items : list string) (st : store) : loc * store :=
  alloc (ListIterator items 0) st.

Definition read_large_file (num_lines : Z) (st : store) : loc * store :=
  alloc (ReadLargeFile 0 num_lines) st.

Definition filter_logs (lines : loc) (status : string) (st : store)
  : loc * store :=
  alloc (FilterLogs lines status) st.

Definition search_logs (lines : loc) (needle : string) (st : store)
  : loc * store :=
  alloc (SearchLogs lines needle) st.

(** [next(it)] for the iterator at [l]: [Some line] for a yielded line,
    [None] for [StopIteration], together with the store afterwards.  The
    outer [None] is "no answer within [fuel] steps" (or a location that
    names no iterator). *)
Fixpoint next (fuel : nat) (l : loc) (st : store)
  : option (option string * store) :=
  match fuel with
  | O => None
  | S fuel' =>
    match st !! l with
    | None => None
    | Some (ListIterator items pos) =>
      match items !! pos with
      | Some line => Some (Some line, <[l := ListIterator items (S pos)]> st)
      | None => Some (None, st)
      end
    | Some (ReadLargeFile i num_lines) =>
      if bool_decide (i < num_lines)
      then Some (Some (logline i), <[l := ReadLargeFile (i + 1) num_lines]> st)
      else Some (None, <[l := Exhausted]> st)
    | Some (FilterLogs lines status) =>
      match next fuel' lines st with
      | None => None
      | Some (None, st') => Some (None, <[l := Exhausted]> st')
      | Some (Some line, st') =>
        if str_contains ("status=" +:+ status) line
        then Some (Some line, st')
        else next fuel' l st'
      end
    | Some (SearchLogs lines needle) =>
      match next fuel' lines st with
      | None => None
      | Some (None, st') => Some (None, <[l := Exhausted]> st')
      | Some (Some line, st') =>
        if str_contains needle line
        then Some (Some line, st')
        else next fuel' l st'
      end
    | Some Exhausted => Some (None, st)
    end
  end.

(** A consumer that pulls until [StopIteration], as [list(it)] does. *)
Fixpoint drain (fuel : nat) (l : loc) (st : store)
  : option (list string * store) :=
  match fuel with
  | O => None
  | S fuel' =>
    match next fuel' l st with
    | None => None
    | Some (None, st') => Some ([], st')
    | Some (Some line, st') =>
      '(rest, st'') ← drain fuel' l st';
      Some (line :: rest, st'')
    end
  end.

(** A consumer that pulls at most [n] lines and then stops pulling, as
    [itertools.islice(it, n)] does. *)
Fixpoint take_lines (fuel : nat) (n : nat) (l : loc) (st : store)
  : option (list string * store) :=
  match n with
  | O => Some ([], st)
  | S n' =>
    match next fuel l st with
    | None => None
    | Some (None, st') => Some ([], st')
    | Some (Some line, st') =>
      '(rest, st'') ← take_lines fuel n' l st';
      Some (line :: rest, st'')
    end
  end.

(** The loop of the demo, entered with [enumerate]'s counter at [i]:
    [for i, line in enumerate(logs): if i >= 5: break; print(line)].
    The result lists what was printed. *)
Fixpoint demo_loop (fuel : nat) (logs : loc) (i : Z) (st : store)
  : option (list string * store) :=
  match fuel with
  | O => None
  | S fuel' =>
    match next fuel' logs st with
    | None => None
    | Some (None, st') => Some ([], st')
    | Some (Some line, st') =>
      if bool_decide (i >= 5) then Some ([], st')
      else
        '(printed, st'') ← demo_loop fuel' logs (i + 1) st';
        Some (line :: printed, st'')
    end
  end.

(** [logs = filter_logs(search_logs(read_large_file(), "logline"))] and
    the loop over it, with the default arguments written out. *)
Definition demo (fuel : nat) : option (list string * store) :=
  let '(source, st) := read_large_file 1000000 [] in
  let '(found, st) := search_logs source "logline" st in
  let '(logs, st) := filter_logs found "OK" st in
  demo_loop fuel logs 0 st.

(** Stages and sources as the functions they are; chaining is function
    composition, whichever way the calls are nested. *)
Definition source := store -> loc * store.







(** The same consumers with the fuel quantified away: the pull, the
    drain or the bounded take comes to an end with this answer. *)
Definition pulls (st : store) (l : loc) (r : option string) (st' : store)
  : Prop :=
  exists fuel, next fuel l st = Some (r, st').

Definition yields (st : store) (l : loc) (xs : list string) (st' : store)
  : Prop :=
  exists fuel, drain fuel l st = Some (xs, st').

Definition takes (st : store) (l : loc) (n : nat) (xs : list string)
    (st' : store) : Prop :=
  exists fuel, take_lines fuel n l st = Some (xs, st').

(** The two filtering stages differ in their test only. *)
Definition stage_of (it : iterator) : option (loc * (string -> bool)) :=
  match it with
  | FilterLogs lines status =>
    Some (lines, str_contains ("status=" +:+ status))
  | SearchLogs lines needle => Some (lines, str_contains needle)
  | _ => None
  end.

(** An upstream is an iterator made before the stage that reads it. *)
Definition well_formed (st : store) : Prop :=
  forall l it lines p,
    st !! l = Some it -> stage_of it = Some (lines, p) -> (lines < l)%nat.

End Pipeline.

(** * The data-model demo: [ImmutableConfig] and [CustomCollection]

    [02.Data-Model-Dunder-Methods/dunder_protocol_demo.py].  The methods
    print as they go, so a state carries what has been printed. *)

Module DataModel.

(** The values the demo stores: [None], booleans, integers and strings. *)
Inductive pyval : Type :=
| PyNone
| PyBool (b : bool)
| PyInt (z : Z)
| PyStr (s : string).

Global Instance pyval_eq_dec : EqDecision pyval.
Proof. solve_decision. Defined.

(** [bool(v)], as [if] and [and] take it. *)
Definition truthy (v : pyval) : bool :=
  match v with
  | PyNone => false
  | PyBool b => b
  | PyInt z => bool_decide (z <> 0)
  | PyStr s => bool_decide (s <> "")
  end.

(** [a == b]: a boolean compares as the integer it is. *)
Definition as_number (v : pyval) : option Z :=
  match v with
  | PyBool b => Some (if b then 1 else 0)
  | PyInt z => Some z
  | _ => None
  end.

Definition py_eq (a b : pyval) : bool :=
  match a, b with
  | PyNone, PyNone => true
  | PyStr s, PyStr t => bool_decide (s = t)
  | _, _ =>
    match as_number a, as_number b with
    | Some x, Some y => bool_decide (x = y)
    | _, _ => false
    end
  end.

Definition AttributeError (msg : string) : exception :=
  {| exc_mro := ["AttributeError"; "Exception"; "BaseException"; "object"];
     exc_str := msg |}.

(** The state: the [__dict__] of every [ImmutableConfig] object, named by
    its position; the class attribute [_instances]; and the lines printed
    so far. *)
Record world : Type := World {
  heap : list (gmap string pyval);
  _instances : gmap string nat;
  stdout : list string
}.

Definition empty_world : world :=
  {| heap := []; _instances := ∅; stdout := [] |}.

(** Code that returns or raises, in a state. *)
Definition M (X : Type) : Type := world -> outcome X * world.

Definition ret {X} (x : X) : M X := fun w => (Returned x, w).

Definition bind {X Y} (m : M X) (k : X -> M Y) : M Y :=
  fun w =>
    match m w with
    | (Returned x, w') => k x w'
    | (Raised e, w') => (Raised e, w')
    end.

Definition raise {X} (e : exception) : M X := fun w => (Raised e, w).

Notation "x <~ m ;; k" := (bind m (fun x => k))
  (at level 100, m at next level, right associativity).
Notation "m ;;; k" := (bind m (fun _ => k))
  (at level 100, right associativity).

Definition print (line : string) : M unit :=
  fun w => (Returned tt, {| heap := heap w; _instances := _instances w;
                            stdout := stdout w ++ [line] |}).

(** The instance [__dict__] of [self]. *)
Definition obj_dict (w : world) (self : nat) : gmap string pyval :=
  default ∅ (heap w !! self).

Section ImmutableConfig.

(** [repr] of a string quotes and escapes it; the rule is left open. *)
Variable repr_str : string -> string.

Definition repr (v : pyval) : string :=
  match v with
  | PyNone => "None"
  | PyBool true => "True"
  | PyBool false => "False"
  | PyInt z => pretty z
  | PyStr s => repr_str s
  end.

Definition str (v : pyval) : string :=
  match v with
  | PyStr s => s
  | _ => repr v
  end.

(** [getattr(self, '_locked', False)]: the instance attribute when there
    is one, the class attribute [_locked = False] otherwise. *)
Definition getattr_locked (self : nat) : M pyval :=
  fun w => (Returned (default (PyBool false) (obj_dict w self !! "_locked")), w).

(** [self.name] for a name the class does not define. *)
Definition getattr (self : nat) (name : string) : M pyval :=
  fun w =>
    match obj_dict w self !! name with
    | Some v => (Returned v, w)
    | None =>
      (Raised (AttributeError ("'ImmutableConfig' object has no attribute '"
                               +:+ name +:+ "'")), w)
    end.

(** [super().__setattr__(name, value)]: the entry of [__dict__] is set. *)
Definition object_setattr (self : nat) (name : string) (value : pyval)
  : M unit :=
  fun w => (Returned tt,
            {| heap := <[self := <[name := value]> (obj_dict w self)]> (heap w);
               _instances := _instances w; stdout := stdout w |}).

(** [super().__new__(cls)]: a new object with an empty [__dict__]. *)
Definition object_new : M nat :=
  fun w => (Returned (length (heap w)),
            {| heap := heap w ++ [∅]; _instances := _instances w;
               stdout := stdout w |}).

Definition __setattr__ (self : nat) (name : string) (value : pyval) : M unit :=
  print ("ImmutableConfig.__setattr__ called for " +:+ name +:+ "="
         +:+ repr value) ;;;
  locked <~ getattr_locked self ;;
  if truthy locked && negb (bool_decide (name ∈ ["_locked"; "_instances"]))
  then raise (AttributeError ("ImmutableConfig: Cannot modify attribute '"
                              +:+ name +:+ "' after initialization"))
  else object_setattr self name value.

Definition __new__ (key : string) (value : pyval) : M nat :=
  print ("ImmutableConfig.__new__ key=[" +:+ repr (PyStr key) +:+ "], value="
         +:+ repr value) ;;;
  fun w =>
    match _instances w !! key with
    | Some obj => (Returned obj, w)
    | None =>
      (obj <~ object_new ;;
       __setattr__ obj "_locked" (PyBool false) ;;;
       (fun w' => (Returned tt,
                   {| heap := heap w'; _instances := <[key := obj]> (_instances w');
                      stdout := stdout w' |})) ;;;
       ret obj) w
    end.

Definition __init__ (self : nat) (key : string) (value : pyval) : M unit :=
  print ("ImmutableConfig.__init__ key=" +:+ repr (PyStr key) +:+ ", value="
         +:+ repr value) ;;;
  locked <~ getattr_locked self ;;
  if truthy locked
  then print "ImmutableConfig.__init__ skipped (already initialized)"
  else
    __setattr__ self "key" (PyStr key) ;;;
    __setattr__ self "value" value ;;;
    __setattr__ self "_locked" (PyBool true).

(** The call [ImmutableConfig(key, value)]: [__new__], then [__init__] on
    what it returned, which is an instance of the class. *)
Definition ImmutableConfig (key : string) (value : pyval) : M nat :=
  obj <~ __new__ key value ;;
  __init__ obj key value ;;;
  ret obj.

Definition __repr__ (self : nat) : M string :=
  k <~ getattr self "key" ;;
  v <~ getattr self "value" ;;
  ret ("<ImmutableConfig key=" +:+ repr k +:+ " value=" +:+ repr v
       +:+ "> brbr").

(** What [==] is asked about: another [ImmutableConfig], or some value. *)
Inductive operand : Type :=
| Config (obj : nat)
| Plain (v : pyval).

Inductive eq_result : Type :=
| EqBool (b : bool)
| NotImplemented.

Definition __eq__ (self : nat) (other : operand) : M eq_result :=
  s1 <~ __repr__ self ;;
  s2 <~ match other with
        | Config obj => __repr__ obj
        | Plain v => ret (str v)
        end ;;
  print ("ImmutableConfig.__eq__ called: self=" +:+ s1 +:+ ", other=" +:+ s2) ;;;
  match other with
  | Config obj =>
    k1 <~ getattr self "key" ;;
    k2 <~ getattr obj "key" ;;
    if py_eq k1 k2
    then v1 <~ getattr self "value" ;;
         v2 <~ getattr obj "value" ;;
         ret (EqBool (py_eq v1 v2))
    else ret (EqBool false)
  | Plain _ => ret NotImplemented
  end.

(** Whether a [__dict__] makes [__setattr__] and [__init__] see a lock. *)
Definition locked (d : gmap string pyval) : bool :=
  truthy (default (PyBool false) (d !! "_locked")).

(** The lines [__setattr__], [__init__] and [__new__] print. *)
Definition setattr_line (name : string) (value : pyval) : string :=
  "ImmutableConfig.__setattr__ called for " +:+ name +:+ "=" +:+ repr value.

Definition init_line (key : string) (value : pyval) : string :=
  "ImmutableConfig.__init__ key=" +:+ repr (PyStr key) +:+ ", value="
    +:+ repr value.

Definition new_line (key : string) (value : pyval) : string :=
  "ImmutableConfig.__new__ key=[" +:+ repr (PyStr key) +:+ "], value="
    +:+ repr value.

(** Every object registered under a key exists, is locked and carries
    that key and a value. *)
Definition consistent (w : world) : Prop :=
  forall key obj, _instances w !! key = Some obj ->
    exists d, heap w !! obj = Some d
      /\ locked d = true
      /\ d !! "key" = Some (PyStr key)
      /\ is_Some (d !! "value").

End ImmutableConfig.

(** [repr] of a string that holds no quote, no backslash and nothing
    unprintable. *)
Definition quoted (s : string) : string := "'" +:+ s +:+ "'".

(** ** [CustomCollection] *)

(** A [dict]: its items in insertion order, no two keys equal by [==]. *)
Abbreviation dict := (list (pyval * pyval)).

(** [d[k]], when there is such a key. *)
Fixpoint dict_get (d : dict) (k : pyval) : option pyval :=
  match d with
  | [] => None
  | (k', v) :: d' => if py_eq k' k then Some v else dict_get d' k
  end.

(** [d[k] = v]: an equal key keeps its place (and the key object it
    had); a new key goes to the end. *)
Fixpoint dict_set (d : dict) (k v : pyval) : dict :=
  match d with
  | [] => [(k, v)]
  | (k', v') :: d' =>
    if py_eq k' k then (k', v) :: d' else (k', v') :: dict_set d' k v
  end.

(** [dict(pairs)]. *)
Definition dict_of (pairs : list (pyval * pyval)) : dict :=
  foldl (fun d '(k, v) => dict_set d k v) [] pairs.

Fixpoint join (sep : string) (parts : list string) : string :=
  match parts with
  | [] => ""
  | [x] => x
  | x :: rest => x +:+ sep +:+ join sep rest
  end.

Section CustomCollection.

Variable repr_str : string -> string.
(** [repr] of a [dict_keyiterator] shows where it lies in memory. *)
Variable repr_iterator : string.

Local Abbreviation repr := (repr repr_str).

Definition repr_dict (d : dict) : string :=
  "{" +:+ join ", " ((fun '(k, v) => repr k +:+ ": " +:+ repr v) <$> d) +:+ "}".

Definition repr_items (d : dict) : string :=
  "[" +:+ join ", " ((fun '(k, v) => "(" +:+ repr k +:+ ", " +:+ repr v +:+ ")") <$> d)
  +:+ "]".

(** A method's run: what it returns or raises, the [_store] afterwards,
    and the lines it printed. *)
Definition method (X : Type) : Type := outcome X * dict * list string.

(** [CustomCollection(initial)]: the [_store] it starts with. *)
Definition CustomCollection (initial : option (list (pyval * pyval))) : dict :=
  match initial with
  | Some (p :: pairs) => dict_of (p :: pairs)
  | _ => []
  end.

Definition __getitem__ (key : pyval) (_store : dict) : method pyval :=
  let line := "CustomCollection.__getitem__ called for key=" +:+ repr key in
  match dict_get _store key with
  | Some v => (Returned v, _store, [line])
  | None =>
    (Raised {| exc_mro := ["KeyError"; "LookupError"; "Exception";
                           "BaseException"; "object"];
               exc_str := repr key |}, _store, [line])
  end.

Definition __setitem__ (key value : pyval) (_store : dict) : method unit :=
  (Returned tt, dict_set _store key value,
   ["CustomCollection.__setitem__ called for key=" +:+ repr key
      +:+ ", value=" +:+ repr value]).

Definition __len__ (_store : dict) : method Z :=
  let len_ := Z.of_nat (length _store) in
  (Returned len_, _store,
   ["CustomCollection.__len__ called -> " +:+ pretty len_]).

(** [__iter__] gives an iterator over the keys; it is read here as the
    keys it will go through. *)
Definition __iter__ (_store : dict) : method (list pyval) :=
  (Returned (fst <$> _store), _store,
   ["CustomCollection.__iter__ called -> " +:+ repr_iterator]).

Definition coll__repr__ (_store : dict) : method string :=
  let str_ := "CustomCollection(" +:+ repr_dict _store +:+ ")" in
  (Returned str_, _store,
   ["CustomCollection.__repr__ called -> " +:+ str_]).

Definition coll__str__ (_store : dict) : method string :=
  let '(_, _, printed) := __len__ _store in
  let str_ := "CustomCollection with " +:+ pretty (Z.of_nat (length _store))
              +:+ " items: " +:+ repr_items _store in
  (Returned str_, _store,
   printed ++ ["CustomCollection.__str__ called -> " +:+ str_]).

End CustomCollection.

(** The state the demo is in once [config1] has been made. *)
Definition demo_world : world :=
  (ImmutableConfig quoted "API_URL" (PyStr "https://example.org")
     empty_world).2.

(** Values equal by [==] have the same normal form: a boolean is the
    integer it stands for. *)
Definition norm (v : pyval) : pyval :=
  match v with
  | PyBool b => PyInt (if b then 1 else 0)
  | _ => v
  end.

(** The keys of a [dict] are pairwise different by [==]. *)
Fixpoint distinct_keys (d : dict) : Prop :=
  match d with
  | [] => True
  | (k, _) :: d' => dict_get d' k = None /\ distinct_keys d'
  end.

End DataModel.

(** * Properties of the retry decorator *)

Module RetryFacts.
Import Retry.

(** A trace written out in full holds no notice of the kind asked for. *)
Ltac no_such_notice :=
  let pre := fresh "pre" in
  intros pre ? ? ?;
  repeat (destruct pre as [| ? pre]; simplify_eq/=).

Section Decorator.
Context {A St V D : Type}.
Variable str_delay : D -> string.
Variable sleep_rejects : D -> bool.
Variable max_attempts : Z.
Variable delay : D.
Variable func : callable A St V.

Local Abbreviation wrapper_loop := (wrapper_loop str_delay sleep_rejects max_attempts delay func).
Local Abbreviation wrapper := (wrapper str_delay sleep_rejects max_attempts delay func).
Local Abbreviation warning_text := (warning_text str_delay delay func).
Local Abbreviation error_text := (error_text max_attempts func).

(** One turn of the loop, by the outcome of the call. *)
Lemma loop_exit args al s :
  al <= 0 -> wrapper_loop args al s = (Returned None, s, []).
Proof.
  intros Hal. rewrite wrapper_loop_equation_1.
  destruct (Z_gt_dec al 0); [lia | reflexivity].
Qed.

Lemma loop_returned args al s v s1 :
  al > 0 -> call func args s = (Returned v, s1) ->
  wrapper_loop args al s = (Returned (Some v), s1, [Invoked (Returned v)]).
Proof.
  intros Hal Hc. rewrite wrapper_loop_equation_1.
  destruct (Z_gt_dec al 0); [| lia]. now rewrite Hc.
Qed.

Lemma loop_other_failure args al s e s1 :
  al > 0 -> call func args s = (Raised e, s1) -> is_ConnectionError e = false ->
  wrapper_loop args al s = (Raised e, s1, [Invoked (Raised e)]).
Proof.
  intros Hal Hc He. rewrite wrapper_loop_equation_1.
  destruct (Z_gt_dec al 0); [| lia]. now rewrite Hc, He.
Qed.

Lemma loop_last_failure args s e s1 :
  call func args s = (Raised e, s1) -> is_ConnectionError e = true ->
  wrapper_loop args 1 s
  = (Raised e, s1, [Invoked (Raised e); LogError (error_text e)]).
Proof.
  intros Hc He. rewrite wrapper_loop_equation_1.
  destruct (Z_gt_dec 1 0); [| lia]. rewrite Hc, He.
  destruct (Z_gt_dec (1 - 1) 0); [lia | reflexivity].
Qed.

Lemma loop_bad_delay args al s e s1 :
  al > 1 -> call func args s = (Raised e, s1) -> is_ConnectionError e = true ->
  sleep_rejects delay = true ->
  wrapper_loop args al s
  = (Raised sleep_ValueError, s1,
     [Invoked (Raised e); LogWarning (warning_text (al - 1) e)]).
Proof.
  intros Hal Hc He Hd. rewrite wrapper_loop_equation_1.
  destruct (Z_gt_dec al 0); [| lia]. rewrite Hc, He.
  destruct (Z_gt_dec (al - 1) 0); [| lia]. now rewrite Hd.
Qed.

Lemma loop_retry args al s e s1 :
  al > 1 -> call func args s = (Raised e, s1) -> is_ConnectionError e = true ->
  sleep_rejects delay = false ->
  wrapper_loop args al s
  = let '(r, s2, t) := wrapper_loop args (al - 1) s1 in
    (r, s2, Invoked (Raised e) :: LogWarning (warning_text (al - 1) e)
              :: Slept delay :: t).
Proof.
  intros Hal Hc He Hd. rewrite wrapper_loop_equation_1.
  destruct (Z_gt_dec al 0); [| lia]. rewrite Hc, He.
  destruct (Z_gt_dec (al - 1) 0); [| lia]. now rewrite Hd.
Qed.






(** C3: with [max_attempts >= 1], when the first call raises anything that
    [except ConnectionError] does not catch, the wrapped call raises that
    same exception at once: one invocation, no notice, no pause. *)
Theorem retry_propagates_other (args : A) (s s1 : St) (e : exception) :
  1 <= max_attempts ->
  call func args s = (Raised e, s1) -> is_ConnectionError e = false ->
  exists t, wrapper args s = (Raised e, s1, t)
    /\ t = [Invoked (Raised e)]
    /\ invocations t = 1%nat /\ warnings t = 0%nat /\ errors t = 0%nat
    /\ pauses t = 0%nat.
Proof.
  intros Hm Hc He. unfold Retry.wrapper.
  rewrite (loop_other_failure args max_attempts s e s1 ltac:(lia) Hc He).
  eexists. now repeat split.
Qed.

(** C9: with [max_attempts <= 0] the wrapped call returns [None] and does
    nothing else: [func] is not invoked and nothing is logged; building
    the wrapper does not look at [max_attempts] either. *)
Theorem retry_nonpositive_attempts (args : A) (s : St) :
  max_attempts <= 0 ->
  wrapper args s = (Returned None, s, [])
  /\ call (retry str_delay sleep_rejects max_attempts delay func) args (s, [])
     = (Returned None, (s, [])).
Proof.
  intros Hm. unfold retry, decorator, Retry.wrapper. cbn.
  now rewrite (loop_exit args max_attempts s Hm).
Qed.

(** Where a warning or an error notice can stand in the trace of the loop
    entered with [al] attempts left. *)
Lemma loop_notices n : forall args al s r s' t,
  Z.to_nat al = n -> wrapper_loop args al s = (r, s', t) ->
  (forall pre msg post, t = pre ++ LogWarning msg :: post ->
     exists e, last pre = Some (Invoked (Raised e))
       /\ is_ConnectionError e = true
       /\ 0 < al - Z.of_nat (invocations pre)
       /\ msg = warning_text (al - Z.of_nat (invocations pre)) e
       /\ (sleep_rejects delay = false -> head post = Some (Slept delay)))
  /\ (forall pre msg post, t = pre ++ LogError msg :: post ->
     exists e, last pre = Some (Invoked (Raised e))
       /\ msg = error_text e
       /\ Z.of_nat (invocations pre) = al
       /\ post = [] /\ r = Raised e).
Proof.
  induction n as [| n IH]; intros args al s r s' t Hn Hl;
    rewrite wrapper_loop_equation_1 in Hl;
    (destruct (Z_gt_dec al 0) as [Hal | _];
       [| simplify_eq/=; split; no_such_notice]); [lia |].
  destruct (call func args s) as [[v | e] s1];
    [simplify_eq/=; split; no_such_notice |].
  destruct (is_ConnectionError e) eqn:He;
    [| simplify_eq/=; split; no_such_notice].
  destruct (Z_gt_dec (al - 1) 0) as [Hal1 | Hal1].
  - destruct (sleep_rejects delay) eqn:Hd.
    + simplify_eq/=. split; [| no_such_notice].
      intros [| ? [| ? [| ? ?]]] msg post Heq; simplify_eq/=.
      exists e. unfold invocations; cbn. repeat split; try done; lia.
    + destruct (wrapper_loop args (al - 1) s1) as [[r2 s2] t2] eqn:Hl2.
      simplify_eq/=.
      destruct (IH args (al - 1) s1 r s' t2 ltac:(lia) Hl2) as [IHw IHe].
      split.
      * intros [| ? [| ? [| ? pre]]] msg post Heq; simplify_eq/=.
        { exists e. unfold invocations; cbn. repeat split; try done; lia. }
        destruct (IHw pre msg post eq_refl) as (e' & Hlast & He' & Hpos & -> & Hs).
        exists e'. rewrite !last_cons, Hlast.
        unfold invocations in *. cbn.
        replace (al - Z.of_nat (S (length (List.filter is_invocation pre))))
          with (al - 1 - Z.of_nat (length (List.filter is_invocation pre))) by lia.
        repeat split; try done.
      * intros [| ? [| ? [| ? pre]]] msg post Heq; simplify_eq/=.
        destruct (IHe pre msg post eq_refl) as (e' & Hlast & -> & Hi & -> & ->).
        exists e'. rewrite !last_cons, Hlast.
        unfold invocations in *. cbn. repeat split; try done. lia.
  - assert (al = 1) as -> by lia. clear Hal Hal1.
    simplify_eq/=. split; [no_such_notice |].
    intros [| ? [| ? [| ? ?]]] msg post Heq; simplify_eq/=.
    exists e. now repeat split.
Qed.

(** C8: the wrapped callable keeps the name of [func]; in any run, every
    warning notice stands right after a [ConnectionError] of [func], its
    text names [func], the attempts still left, that error and the delay,
    and the pause follows it; an error notice stands after the
    [max_attempts]-th invocation, its text names [func], [max_attempts]
    and the error, which is the exception the call ends with.  The
    wrapper logs nothing else. *)
Theorem retry_notices (args : A) (s : St) r s' t :
  wrapper args s = (r, s', t) ->
  __name__ (retry str_delay sleep_rejects max_attempts delay func)
    = __name__ func
  /\ (forall pre msg post, t = pre ++ LogWarning msg :: post ->
     exists e, last pre = Some (Invoked (Raised e))
       /\ is_ConnectionError e = true
       /\ 0 < max_attempts - Z.of_nat (invocations pre)
       /\ msg = "[retry] " +:+ __name__ func +:+ " failed (attempts left: "
                +:+ pretty (max_attempts - Z.of_nat (invocations pre))
                +:+ ", error: " +:+ exc_str e
                +:+ "). Retrying in " +:+ str_delay delay +:+ " sec..."
       /\ (sleep_rejects delay = false -> head post = Some (Slept delay)))
  /\ (forall pre msg post, t = pre ++ LogError msg :: post ->
     exists e, last pre = Some (Invoked (Raised e))
       /\ msg = "[retry] " +:+ __name__ func +:+ " failed after "
                +:+ pretty max_attempts +:+ " attempts. Last error: "
                +:+ exc_str e
       /\ Z.of_nat (invocations pre) = max_attempts
       /\ post = [] /\ r = Raised e).
Proof.
  intros Hl. split; [reflexivity |].
  exact (loop_notices _ args max_attempts s r s' t eq_refl Hl).
Qed.

(** ** Any function under the wrapper *)

(** What one turn of the loop can have been. *)
Lemma loop_inv args al s r s' t :
  wrapper_loop args al s = (r, s', t) ->
  (al <= 0 /\ r = Returned None /\ s' = s /\ t = [])
  \/ (0 < al /\ exists o, call func args s = (o, s') /\ r = passed_on o
        /\ t = [Invoked o]
        /\ forall e, o = Raised e -> is_ConnectionError e = false)
  \/ (al = 1 /\ exists e, call func args s = (Raised e, s')
        /\ is_ConnectionError e = true /\ r = Raised e
        /\ t = [Invoked (Raised e); LogError (error_text e)])
  \/ (1 < al /\ exists e, call func args s = (Raised e, s')
        /\ is_ConnectionError e = true /\ sleep_rejects delay = true
        /\ r = Raised sleep_ValueError
        /\ t = [Invoked (Raised e); LogWarning (warning_text (al - 1) e)])
  \/ (1 < al /\ exists e s1 t', call func args s = (Raised e, s1)
        /\ is_ConnectionError e = true /\ sleep_rejects delay = false
        /\ wrapper_loop args (al - 1) s1 = (r, s', t')
        /\ t = Invoked (Raised e) :: LogWarning (warning_text (al - 1) e)
                 :: Slept delay :: t').
Proof.
  intros Hl. rewrite wrapper_loop_equation_1 in Hl.
  destruct (Z_gt_dec al 0) as [Hal | Hal];
    [| left; assert (al <= 0) by lia; clear Hal; by simplify_eq/=].
  right. destruct (call func args s) as [[v | e] s1] eqn:Hc.
  { left. split; [lia |]. exists (Returned v). by simplify_eq/=. }
  destruct (is_ConnectionError e) eqn:He.
  2:{ left. split; [lia |]. exists (Raised e). simplify_eq/=.
      repeat split. intros ? [= <-]. done. }
  right. destruct (Z_gt_dec (al - 1) 0) as [Hal1 | Hal1].
  - right. destruct (sleep_rejects delay) eqn:Hd.
    + left. split; [lia |]. exists e. clear Hal Hal1. by simplify_eq/=.
    + right. split; [lia |].
      destruct (wrapper_loop args (al - 1) s1) as [[r2 s2] t2] eqn:Hl2.
      exists e, s1, t2. clear Hal Hal1. by simplify_eq/=.
  - left. assert (al = 1) as -> by lia. clear Hal Hal1.
    split; [done |]. exists e. by simplify_eq/=.
Qed.

Lemma loop_bound n : forall args al s r s' t,
  Z.to_nat al = n -> wrapper_loop args al s = (r, s', t) ->
  (invocations t <= n)%nat.
Proof.
  induction n as [| n IH]; intros args al s r s' t Hn Hl;
    apply loop_inv in Hl
      as [(? & _ & _ & ->) | [(? & o & _ & _ & -> & _) | [(? & e & _ & _ & _ & ->)
         | [(? & e & _ & _ & _ & _ & ->)
         | (? & e & s1 & t' & _ & _ & _ & Hl & ->)]]]];
    unfold invocations in *; simpl; try lia.
  specialize (IH args (al - 1) s1 r s' t' ltac:(lia) Hl). lia.
Qed.

(** X1: whatever the function does and whatever the delay is, one call
    of the wrapper invokes the function at most [max_attempts] times
    (never, when [max_attempts] is not positive). *)
Theorem retry_attempts_bounded (args : A) (s : St) :
  Z.of_nat (invocations (wrapper args s).2) <= Z.max 0 max_attempts.
Proof.
  destruct (wrapper args s) as [[r s'] t] eqn:Hl. simpl.
  pose proof (loop_bound _ args max_attempts s r s' t eq_refl Hl). lia.
Qed.

Lemma loop_outcome n : forall args al s r s' t,
  Z.to_nat al = S n -> sleep_rejects delay = false ->
  wrapper_loop args al s = (r, s', t) ->
  exists o, last_outcome t = Some o /\ r = passed_on o
    /\ forall pre o' post, t = pre ++ Invoked o' :: post ->
         invocations post <> 0%nat ->
         exists e, o' = Raised e /\ is_ConnectionError e = true.
Proof.
  induction n as [| n IH]; intros args al s r s' t Hn Hd Hl;
    apply loop_inv in Hl
      as [(? & _) | [(? & o & _ & -> & -> & _) | [(? & e & _ & _ & -> & ->)
         | [(? & e & _ & _ & Hd' & _)
         | (? & e & s1 & t' & _ & He & _ & Hl & ->)]]]];
    try lia; try congruence.
  - exists o. repeat split. intros [| ? [| ? ?]] ? ? ? Hp; by simplify_eq/=.
  - exists (Raised e). repeat split.
    intros [| ? [| ? [| ? ?]]] ? ? ? Hp; by simplify_eq/=.
  - exists o. repeat split. intros [| ? [| ? ?]] ? ? ? Hp; by simplify_eq/=.
  - destruct (IH args (al - 1) s1 r s' t' ltac:(lia) Hd Hl)
      as (o & Hlast & -> & Hpre).
    exists o. simpl. rewrite Hlast. repeat split.
    intros [| ? [| ? [| ? pre]]] o' post Heq Hp; simplify_eq/=.
    + by exists e.
    + by apply (Hpre pre o' post).
Qed.

(** X2: with [max_attempts >= 1] and a delay [time.sleep] accepts, what
    the wrapped call returns or raises is what the last invocation of the
    function returned or raised, and every invocation before the last
    one raised a [ConnectionError]. *)
Theorem retry_passes_on_last (args : A) (s : St) r s' t :
  1 <= max_attempts -> sleep_rejects delay = false ->
  wrapper args s = (r, s', t) ->
  exists o, last_outcome t = Some o /\ r = passed_on o
    /\ forall pre o' post, t = pre ++ Invoked o' :: post ->
         invocations post <> 0%nat ->
         exists e, o' = Raised e /\ is_ConnectionError e = true.
Proof.
  intros Hm Hd Hl.
  apply (loop_outcome (Z.to_nat (max_attempts - 1)) args max_attempts s r s' t);
    [lia | done | done].
Qed.

Lemma loop_accounting n : forall args al s r s' t,
  Z.to_nat al = S n -> sleep_rejects delay = false ->
  wrapper_loop args al s = (r, s', t) ->
  invocations t = S (warnings t) /\ pauses t = warnings t
  /\ ((errors t = 0%nat /\ forall e, r = Raised e -> is_ConnectionError e = false)
      \/ (errors t = 1%nat /\ Z.of_nat (invocations t) = al
          /\ exists e, r = Raised e /\ is_ConnectionError e = true)).
Proof.
  induction n as [| n IH]; intros args al s r s' t Hn Hd Hl;
    apply loop_inv in Hl
      as [(? & _) | [(? & o & _ & -> & -> & Ho) | [(? & e & _ & He & -> & ->)
         | [(? & e & _ & _ & Hd' & _)
         | (? & e & s1 & t' & _ & He & _ & Hl & ->)]]]];
    try lia; try congruence.
  - repeat split. left. split; [done |].
    intros e He'. destruct o as [v | e0]; simplify_eq/=. by apply Ho.
  - repeat split. right. split; [done |].
    split; [unfold invocations; simpl; lia | by exists e].
  - repeat split. left. split; [done |].
    intros e He'. destruct o as [v | e0]; simplify_eq/=. by apply Ho.
  - destruct (IH args (al - 1) s1 r s' t' ltac:(lia) Hd Hl)
      as (Hi & Hp & Hcase).
    unfold invocations, warnings, pauses, errors in *. simpl.
    split; [lia |]. split; [lia |].
    destruct Hcase as [[? ?] | (? & ? & ?)]; [left | right];
      repeat split; try done; lia.
Qed.

(** X3: with [max_attempts >= 1] and a delay [time.sleep] accepts,
    whatever the function does, every invocation but the last is followed
    by one warning and one pause; there is at most one error notice, and
    there is one exactly when the call ends by raising a
    [ConnectionError], which happens only after [max_attempts]
    invocations. *)
Theorem retry_accounting (args : A) (s : St) r s' t :
  1 <= max_attempts -> sleep_rejects delay = false ->
  wrapper args s = (r, s', t) ->
  invocations t = S (warnings t) /\ pauses t = warnings t
  /\ ((errors t = 0%nat /\ forall e, r = Raised e -> is_ConnectionError e = false)
      \/ (errors t = 1%nat /\ Z.of_nat (invocations t) = max_attempts
          /\ exists e, r = Raised e /\ is_ConnectionError e = true)).
Proof.
  intros Hm Hd Hl.
  apply (loop_accounting (Z.to_nat (max_attempts - 1)) args max_attempts s r s' t);
    [lia | done | done].
Qed.

Lemma loop_state n : forall args al s r s' t,
  Z.to_nat al = n -> wrapper_loop args al s = (r, s', t) ->
  s' = state_after func args (invocations t) s.
Proof.
  induction n as [| n IH]; intros args al s r s' t Hn Hl;
    apply loop_inv in Hl
      as [(? & _ & -> & ->) | [(? & o & Hc & _ & -> & _) | [(? & e & Hc & _ & _ & ->)
         | [(? & e & Hc & _ & _ & _ & ->)
         | (? & e & s1 & t' & Hc & _ & _ & Hl & ->)]]]];
    try lia; try done; unfold invocations; simpl; rewrite ?Hc; try done.
  apply (IH args (al - 1) s1 r s' t' ltac:(lia) Hl).
Qed.

(** X4: the wrapper touches the state only by invoking the function,
    each time with the same arguments: the state a wrapped call ends in
    is the state that as many plain calls of the function lead to. *)
Theorem retry_state_is_calls (args : A) (s : St) :
  (wrapper args s).1.2
  = state_after func args (invocations (wrapper args s).2) s.
Proof.
  destruct (wrapper args s) as [[r s'] t] eqn:Hl. simpl.
  exact (loop_state _ args max_attempts s r s' t eq_refl Hl).
Qed.

Lemma loop_raises_other args k : forall al s e,
  Z.of_nat k < al -> sleep_rejects delay = false ->
  fails_then_raises func args k e s ->
  exists s' t, wrapper_loop args al s = (Raised e, s', t)
    /\ invocations t = S k /\ warnings t = k /\ errors t = 0%nat
    /\ pauses t = k.
Proof.
  induction k as [| k IH]; intros al s e Hk Hd Hf.
  - destruct Hf as (s' & Hc & He). exists s', [Invoked (Raised e)].
    rewrite (loop_other_failure args al s e s' ltac:(lia) Hc He).
    now repeat split.
  - destruct Hf as (e' & s1 & Hc & He & Hf).
    assert (Hk' : Z.of_nat k < al - 1) by lia.
    destruct (IH (al - 1) s1 e Hk' Hd Hf) as (s' & t & Hl & Hi & Hw & Her & Hp).
    rewrite (loop_retry args al s e' s1 ltac:(lia) Hc He Hd), Hl.
    eexists _, _. split; [reflexivity |].
    unfold invocations, warnings, errors, pauses in *. cbn.
    repeat split; congruence.
Qed.

(** X5: an exception that [except ConnectionError] does not catch leaves
    the wrapper at whichever attempt it comes: after [k < max_attempts]
    retried failures the call raises it unchanged, with [k] warnings and
    no error notice, and the function is not invoked again. *)
Theorem retry_propagates_other_later (args : A) (k : nat) (e : exception)
    (s : St) :
  Z.of_nat k < max_attempts -> sleep_rejects delay = false ->
  fails_then_raises func args k e s ->
  exists s' t, wrapper args s = (Raised e, s', t)
    /\ invocations t = S k /\ warnings t = k /\ errors t = 0%nat
    /\ pauses t = k.
Proof. intros Hk Hd Hf. now apply loop_raises_other. Qed.

(** X6: with [max_attempts = 1] nothing is retried, whatever the delay
    is: the function is invoked once, there is no warning and no pause,
    and the call ends as that invocation did, in the state it left. *)
Theorem retry_single_attempt (args : A) (s : St) r s' t :
  max_attempts = 1 -> wrapper args s = (r, s', t) ->
  invocations t = 1%nat /\ warnings t = 0%nat /\ pauses t = 0%nat
  /\ r = passed_on (call func args s).1 /\ s' = (call func args s).2.
Proof.
  intros Hm Hl. unfold Retry.wrapper in Hl.
  apply loop_inv in Hl
    as [(? & _) | [(? & o & Hc & -> & -> & _) | [(? & e & Hc & _ & -> & ->)
       | [(? & _) | (? & _)]]]]; try lia; rewrite Hc; now repeat split.
Qed.

(** X7: with a delay that [time.sleep] refuses, the function is never
    invoked a second time and no pause is taken; when more than one
    attempt is allowed and the first invocation raises a
    [ConnectionError], the call raises the [ValueError] of [time.sleep]
    instead, after the warning and without an error notice. *)
Theorem retry_refused_delay (args : A) (s : St) r s' t :
  sleep_rejects delay = true -> wrapper args s = (r, s', t) ->
  (invocations t <= 1)%nat /\ pauses t = 0%nat
  /\ (1 < max_attempts ->
      forall e s1, call func args s = (Raised e, s1) ->
        is_ConnectionError e = true ->
        r = Raised sleep_ValueError /\ s' = s1
        /\ t = [Invoked (Raised e); LogWarning (warning_text (max_attempts - 1) e)]).
Proof.
  intros Hd Hl. unfold Retry.wrapper in Hl.
  apply loop_inv in Hl
    as [(? & _ & _ & ->) | [(? & o & Hc & -> & -> & Ho) | [(? & e & Hc & _ & -> & ->)
       | [(? & e & Hc & He & _ & -> & ->) | (? & e & s1 & t' & _ & _ & Hd' & _)]]]];
    try congruence; (split; [unfold invocations; simpl; lia |]);
    (split; [done |]); intros Hm e' s1' Hc' He'; try lia.
  - rewrite Hc in Hc'. simplify_eq/=. rewrite (Ho e' eq_refl) in He'. done.
  - rewrite Hc in Hc'. by simplify_eq/=.
Qed.



End Decorator.

(** ** The demo: [flaky_network_call] under [@retry(max_attempts=3)] *)

Local Abbreviation demo_wrapper :=
  (wrapper str_seconds sleep_rejects_seconds 3 0 flaky_network_call tt).

(** Scenario B: two failures ahead, three attempts. *)
Example flaky_two_failures :
  demo_wrapper {["failures" := 2]}
  = (Returned (Some "Success!"), {["failures" := 0]},
     [Invoked (Raised (ConnectionError "Network down!"));
      LogWarning "[retry] flaky_network_call failed (attempts left: 2, error: Network down!). Retrying in 0 sec...";
      Slept 0;
      Invoked (Raised (ConnectionError "Network down!"));
      LogWarning "[retry] flaky_network_call failed (attempts left: 1, error: Network down!). Retrying in 0 sec...";
      Slept 0;
      Invoked (Returned "Success!")]).
Proof. vm_compute. reflexivity. Qed.

(** Scenario C: three failures ahead, three attempts. *)
Example flaky_three_failures :
  demo_wrapper {["failures" := 3]}
  = (Raised (ConnectionError "Network down!"), {["failures" := 0]},
     [Invoked (Raised (ConnectionError "Network down!"));
      LogWarning "[retry] flaky_network_call failed (attempts left: 2, error: Network down!). Retrying in 0 sec...";
      Slept 0;
      Invoked (Raised (ConnectionError "Network down!"));
      LogWarning "[retry] flaky_network_call failed (attempts left: 1, error: Network down!). Retrying in 0 sec...";
      Slept 0;
      Invoked (Raised (ConnectionError "Network down!"));
      LogError "[retry] flaky_network_call failed after 3 attempts. Last error: Network down!"]).
Proof. vm_compute. reflexivity. Qed.

(** A subclass of [ConnectionError] is caught and retried like it. *)
Example broken_pipe_is_retried :
  wrapper str_seconds sleep_rejects_seconds 2 0
    (Callable "send"
       (fun (_ : unit) (n : Z) =>
          if bool_decide (n > 0)
          then (Raised (BrokenPipeError "Broken pipe"), n - 1)
          else (Returned "sent", n))) tt 1
  = (Returned (Some "sent"), 0,
     [Invoked (Raised (BrokenPipeError "Broken pipe"));
      LogWarning "[retry] send failed (attempts left: 1, error: Broken pipe). Retrying in 0 sec...";
      Slept 0;
      Invoked (Returned "sent")]).
Proof. vm_compute. reflexivity. Qed.

(** A negative delay: [time.sleep] raises after the first warning. *)
Example flaky_negative_delay :
  wrapper str_seconds sleep_rejects_seconds 3 (-1) flaky_network_call tt
    {["failures" := 2]}
  = (Raised sleep_ValueError, {["failures" := 1]},
     [Invoked (Raised (ConnectionError "Network down!"));
      LogWarning "[retry] flaky_network_call failed (attempts left: 2, error: Network down!). Retrying in -1 sec..."]).
Proof. vm_compute. reflexivity. Qed.



Lemma retry_propagates_other_witness :
  exists t,
    demo_wrapper ∅ = (Raised (KeyError "failures"), ∅, t)
    /\ t = [Invoked (Raised (KeyError "failures"))]
    /\ invocations t = 1%nat /\ warnings t = 0%nat /\ errors t = 0%nat
    /\ pauses t = 0%nat.
Proof.
  apply (retry_propagates_other str_seconds sleep_rejects_seconds 3 0
           flaky_network_call tt ∅ ∅ (KeyError "failures"));
    [lia | reflexivity | reflexivity].
Defined.

Lemma retry_nonpositive_attempts_witness :
  wrapper str_seconds sleep_rejects_seconds 0 0 flaky_network_call tt
    {["failures" := 2]}
  = (Returned None, {["failures" := 2]}, []).
Proof.
  apply (retry_nonpositive_attempts str_seconds sleep_rejects_seconds 0 0
           flaky_network_call tt {["failures" := 2]}). lia.
Defined.

Lemma retry_notices_witness :
  exists e,
    is_ConnectionError e = true
    /\ "[retry] flaky_network_call failed (attempts left: 1, error: Network down!). Retrying in 0 sec..."
       = "[retry] flaky_network_call failed (attempts left: "
           +:+ pretty (3 - Z.of_nat 2) +:+ ", error: " +:+ exc_str e
           +:+ "). Retrying in 0 sec...".
Proof.
  destruct (retry_notices str_seconds sleep_rejects_seconds 3 0
              flaky_network_call tt {["failures" := 3]} _ _ _
              flaky_three_failures) as (_ & Hw & _).
  destruct (Hw [Invoked (Raised (ConnectionError "Network down!"));
                LogWarning "[retry] flaky_network_call failed (attempts left: 2, error: Network down!). Retrying in 0 sec...";
                Slept 0;
                Invoked (Raised (ConnectionError "Network down!"))]
              _ _ eq_refl) as (e & _ & He & _ & Hmsg & _).
  exists e. split; [exact He | exact Hmsg].
Defined.

(** ** [flaky_network_call] with any counter, under any policy *)

Section Flaky.
Context {D : Type}.
Variable str_delay : D -> string.
Variable sleep_rejects : D -> bool.
Variable max_attempts : Z.
Variable delay : D.
Hypothesis delay_accepted : sleep_rejects delay = false.

Local Abbreviation flaky_loop :=
  (wrapper_loop str_delay sleep_rejects max_attempts delay flaky_network_call tt).

Lemma flaky_call_fails (counter : gmap string Z) (n : Z) :
  counter !! "failures" = Some n -> 0 < n ->
  call flaky_network_call tt counter
  = (Raised (ConnectionError "Network down!"), <["failures" := n - 1]> counter).
Proof.
  intros Hc Hn. simpl. rewrite Hc. now rewrite bool_decide_eq_true_2 by lia.
Qed.

Lemma flaky_call_returns (counter : gmap string Z) (n : Z) :
  counter !! "failures" = Some n -> n <= 0 ->
  call flaky_network_call tt counter = (Returned "Success!", counter).
Proof.
  intros Hc Hn. simpl. rewrite Hc. now rewrite bool_decide_eq_false_2 by lia.
Qed.

Lemma flaky_loop_recovers k : forall al counter n,
  counter !! "failures" = Some n -> Z.to_nat n = k -> n < al -> 0 < al ->
  exists t,
    flaky_loop al counter
    = (Returned (Some "Success!"), <["failures" := Z.min n 0]> counter, t)
    /\ invocations t = S k /\ warnings t = k /\ errors t = 0%nat.
Proof.
  induction k as [| k IH]; intros al counter n Hc Hk Hn Hal.
  - eexists.
    rewrite (loop_returned _ _ _ _ _ tt al counter "Success!" counter
               ltac:(lia) (flaky_call_returns counter n Hc ltac:(lia))).
    replace (Z.min n 0) with n by lia. rewrite insert_id by done.
    now repeat split.
  - destruct (IH (al - 1) (<["failures" := n - 1]> counter) (n - 1))
      as (t & Hl & Hi & Hw & He); [apply lookup_insert_eq | lia | lia | lia |].
    eexists.
    rewrite (loop_retry _ _ _ _ _ tt al counter _ _ ltac:(lia)
               (flaky_call_fails counter n Hc ltac:(lia)) eq_refl delay_accepted).
    rewrite Hl, insert_insert_eq.
    replace (Z.min (n - 1) 0) with (Z.min n 0) by lia.
    split; [reflexivity |].
    unfold invocations, warnings, errors in *. simpl. repeat split; congruence.
Qed.

Lemma flaky_loop_exhausts k : forall al counter n,
  counter !! "failures" = Some n -> al = Z.of_nat (S k) -> al <= n ->
  exists t,
    flaky_loop al counter
    = (Raised (ConnectionError "Network down!"),
       <["failures" := n - al]> counter, t)
    /\ invocations t = S k /\ warnings t = k /\ errors t = 1%nat.
Proof.
  induction k as [| k IH]; intros al counter n Hc Hal Hn.
  - subst al. eexists. change (Z.of_nat 1) with 1.
    rewrite (loop_last_failure _ _ _ _ _ tt counter _ _
               (flaky_call_fails counter n Hc ltac:(lia)) eq_refl).
    now repeat split.
  - destruct (IH (al - 1) (<["failures" := n - 1]> counter) (n - 1))
      as (t & Hl & Hi & Hw & He); [apply lookup_insert_eq | lia | lia |].
    eexists.
    rewrite (loop_retry _ _ _ _ _ tt al counter _ _ ltac:(lia)
               (flaky_call_fails counter n Hc ltac:(lia)) eq_refl delay_accepted).
    rewrite Hl, insert_insert_eq.
    replace (n - 1 - (al - 1)) with (n - al) by lia.
    split; [reflexivity |].
    unfold invocations, warnings, errors in *. simpl. repeat split; congruence.
Qed.

(** X9: under any policy with [max_attempts >= 1] and an accepted delay,
    the demo's [flaky_network_call] returns ["Success!"] exactly when
    [counter['failures']] is below [max_attempts], leaving the entry at 0
    (or as it was, when it was not positive); otherwise the call raises
    the [ConnectionError] and [max_attempts] has been taken off the
    entry.  Without the entry the [KeyError] comes out of the first
    invocation.  No other entry of [counter] changes. *)
Theorem flaky_under_retry (counter : gmap string Z) :
  1 <= max_attempts ->
  let '(r, counter', t) :=
    wrapper str_delay sleep_rejects max_attempts delay flaky_network_call
      tt counter in
  match counter !! "failures" with
  | None =>
    r = Raised (KeyError "failures") /\ counter' = counter
    /\ invocations t = 1%nat /\ warnings t = 0%nat /\ errors t = 0%nat
  | Some n =>
    if bool_decide (n < max_attempts)
    then r = Returned (Some "Success!")
         /\ counter' = <["failures" := Z.min n 0]> counter
         /\ Z.of_nat (warnings t) = Z.max 0 n /\ errors t = 0%nat
    else r = Raised (ConnectionError "Network down!")
         /\ counter' = <["failures" := n - max_attempts]> counter
         /\ Z.of_nat (invocations t) = max_attempts /\ errors t = 1%nat
  end.
Proof.
  intros Hm. unfold Retry.wrapper.
  destruct (counter !! "failures") as [n |] eqn:Hc.
  - case_bool_decide as Hn.
    + destruct (flaky_loop_recovers (Z.to_nat n) max_attempts counter n
                  Hc eq_refl Hn ltac:(lia)) as (t & -> & Hi & Hw & He).
      repeat split; [lia | done].
    + destruct (flaky_loop_exhausts (Z.to_nat (max_attempts - 1)) max_attempts
                  counter n Hc ltac:(lia) ltac:(lia)) as (t & -> & Hi & Hw & He).
      repeat split; [lia | done].
  - rewrite (loop_other_failure _ _ _ _ _ tt max_attempts counter
               (KeyError "failures") counter ltac:(lia)); [done | | done].
    simpl. now rewrite Hc.
Qed.

End Flaky.

Lemma retry_passes_on_last_witness :
  let '(r, _, t) := demo_wrapper {["failures" := 2]} in
  exists o, last_outcome t = Some o /\ r = passed_on o.
Proof.
  destruct (demo_wrapper {["failures" := 2]}) as [[r s'] t] eqn:Hl.
  destruct (retry_passes_on_last str_seconds sleep_rejects_seconds 3 0
              flaky_network_call tt {["failures" := 2]} r s' t
              ltac:(lia) eq_refl Hl) as (o & Hlast & Hr & _).
  exists o. split; [exact Hlast | exact Hr].
Defined.

Lemma retry_accounting_witness :
  let '(_, _, t) := demo_wrapper {["failures" := 3]} in
  invocations t = S (warnings t).
Proof.
  destruct (demo_wrapper {["failures" := 3]}) as [[r s'] t] eqn:Hl.
  exact (proj1 (retry_accounting str_seconds sleep_rejects_seconds 3 0
                  flaky_network_call tt {["failures" := 3]} r s' t
                  ltac:(lia) eq_refl Hl)).
Defined.

Lemma retry_propagates_other_later_witness :
  exists s' t,
    wrapper str_seconds sleep_rejects_seconds 3 0
      (Callable "lookup"
         (fun (_ : unit) (n : Z) =>
            if bool_decide (n > 0)
            then (@Raised string (ConnectionError "Network down!"), n - 1)
            else (Raised (KeyError "host"), n))) tt 1
    = (Raised (KeyError "host"), s', t)
    /\ invocations t = 2%nat /\ warnings t = 1%nat /\ errors t = 0%nat
    /\ pauses t = 1%nat.
Proof.
  apply (retry_propagates_other_later str_seconds sleep_rejects_seconds 3 0
           (Callable "lookup"
              (fun (_ : unit) (n : Z) =>
                 if bool_decide (n > 0)
                 then (@Raised string (ConnectionError "Network down!"), n - 1)
                 else (Raised (KeyError "host"), n))) tt 1%nat
           (KeyError "host") 1); [lia | reflexivity |].
  simpl. do 2 eexists. split; [reflexivity |]. split; [reflexivity |].
  eexists. split; reflexivity.
Defined.

Lemma retry_single_attempt_witness :
  let '(_, _, t) :=
    wrapper str_seconds sleep_rejects_seconds 1 (-1) flaky_network_call tt
      {["failures" := 2]} in
  invocations t = 1%nat.
Proof.
  destruct (wrapper str_seconds sleep_rejects_seconds 1 (-1)
              flaky_network_call tt {["failures" := 2]})
    as [[r s'] t] eqn:Hl.
  exact (proj1 (retry_single_attempt str_seconds sleep_rejects_seconds 1 (-1)
                  flaky_network_call tt {["failures" := 2]} r s' t
                  eq_refl Hl)).
Defined.

Lemma retry_refused_delay_witness :
  let '(_, _, t) :=
    wrapper str_seconds sleep_rejects_seconds 3 (-1) flaky_network_call tt
      {["failures" := 2]} in
  (invocations t <= 1)%nat.
Proof.
  destruct (wrapper str_seconds sleep_rejects_seconds 3 (-1)
              flaky_network_call tt {["failures" := 2]})
    as [[r s'] t] eqn:Hl.
  exact (proj1 (retry_refused_delay str_seconds sleep_rejects_seconds 3 (-1)
                  flaky_network_call tt {["failures" := 2]} r s' t
                  eq_refl Hl)).
Defined.


Lemma flaky_under_retry_witness :
  let '(r, counter', t) :=
    wrapper str_seconds sleep_rejects_seconds 3 0 flaky_network_call tt
      {["failures" := 2]} in
  r = Returned (Some "Success!")
  /\ counter' = <["failures" := Z.min 2 0]> {["failures" := 2]}
  /\ Z.of_nat (warnings t) = Z.max 0 2 /\ errors t = 0%nat.
Proof.
  exact (flaky_under_retry str_seconds sleep_rejects_seconds 3 0 eq_refl
           {["failures" := 2]} ltac:(lia)).
Defined.

End RetryFacts.

(** * Properties of the generator pipeline *)

Module PipelineFacts.
Import Pipeline.

(** ** [needle in line] *)

Lemma str_app_cons (a : Ascii.ascii) (s t : string) :
  String a s +:+ t = String a (s +:+ t).
Proof. reflexivity. Qed.

Lemma str_app_empty (t : string) : "" +:+ t = t.
Proof. reflexivity. Qed.

Lemma str_app_assoc (s t u : string) : (s +:+ t) +:+ u = s +:+ (t +:+ u).
Proof.
  induction s as [| a s IH]; [reflexivity |].
  rewrite !str_app_cons. now rewrite IH.
Qed.

Lemma prefix_spec (needle line : string) :
  String.prefix needle line = true <-> exists post, line = needle +:+ post.
Proof.
  revert line. induction needle as [| a needle IH]; intros line.
  - split; [intros _; now exists line | intros _; now destruct line].
  - destruct line as [| b line]; simpl.
    + split; [discriminate | intros [post Heq]; discriminate].
    + destruct (Ascii.ascii_dec a b) as [-> | Hne]; rewrite ?IH.
      * split; intros [post Heq]; exists post; rewrite str_app_cons in *;
          congruence.
      * split; [discriminate |].
        intros [post Heq]. rewrite str_app_cons in Heq. congruence.
Qed.

Lemma str_contains_spec (needle line : string) :
  str_contains needle line = true
  <-> exists pre post, line = pre +:+ needle +:+ post.
Proof.
  induction line as [| b line IH];
    [change (str_contains needle "")
       with (String.prefix needle "" || false)
    | change (str_contains needle (String b line))
        with (String.prefix needle (String b line) || str_contains needle line)];
    rewrite orb_true_iff, prefix_spec.
  - split.
    + intros [[post Heq] | ?]; [| discriminate]. now exists "", post.
    + intros ([| ? ?] & post & Heq); [left; now exists post | discriminate].
  - rewrite IH. split.
    + intros [[post Heq] | (pre & post & Heq)].
      * now exists "", post.
      * exists (String b pre), post. rewrite str_app_cons. now rewrite Heq.
    + intros ([| c pre] & post & Heq).
      * left. now exists post.
      * right. exists pre, post. rewrite str_app_cons in Heq. congruence.
Qed.

(** ** More fuel changes no answer *)

Lemma next_mono fuel : forall fuel' l st r,
  next fuel l st = Some r -> (fuel <= fuel')%nat -> next fuel' l st = Some r.
Proof.
  induction fuel as [| fuel IH]; intros fuel' l st r Hn Hle; [discriminate |].
  destruct fuel' as [| fuel']; [lia |]. simpl in *.
  destruct (st !! l) as [[items pos | i n | lines status | lines needle |] |];
    try done.
  - destruct (next fuel lines st) as [[[line |] st1] |] eqn:Hup; try done;
      rewrite (IH fuel' _ _ _ Hup ltac:(lia)); [| done].
    destruct (str_contains _ line); [done |]. apply IH; [done | lia].
  - destruct (next fuel lines st) as [[[line |] st1] |] eqn:Hup; try done;
      rewrite (IH fuel' _ _ _ Hup ltac:(lia)); [| done].
    destruct (str_contains _ line); [done |]. apply IH; [done | lia].
Qed.

Lemma drain_mono fuel : forall fuel' l st r,
  drain fuel l st = Some r -> (fuel <= fuel')%nat -> drain fuel' l st = Some r.
Proof.
  induction fuel as [| fuel IH]; intros fuel' l st r Hd Hle; [discriminate |].
  destruct fuel' as [| fuel']; [lia |]. simpl in *.
  destruct (next fuel l st) as [[[line |] st1] |] eqn:Hn; try done;
    rewrite (next_mono fuel fuel' _ _ _ Hn ltac:(lia)); [| done].
  destruct (drain fuel l st1) as [[rest st2] |] eqn:Hr; [| done].
  now rewrite (IH fuel' _ _ _ Hr ltac:(lia)).
Qed.

Lemma take_lines_mono n : forall fuel fuel' l st r,
  take_lines fuel n l st = Some r -> (fuel <= fuel')%nat ->
  take_lines fuel' n l st = Some r.
Proof.
  induction n as [| n IH]; intros fuel fuel' l st r Ht Hle; [done |].
  simpl in *.
  destruct (next fuel l st) as [[[line |] st1] |] eqn:Hn; try done;
    rewrite (next_mono fuel fuel' _ _ _ Hn Hle); [| done].
  destruct (take_lines fuel n l st1) as [[rest st2] |] eqn:Hr; [| done].
  now rewrite (IH fuel fuel' _ _ _ Hr Hle).
Qed.

(** ** Pulls, drains and takes, one step at a time *)

Lemma yields_nil st l st' : pulls st l None st' -> yields st l [] st'.
Proof. intros [fuel Hn]. exists (S fuel). simpl. now rewrite Hn. Qed.

Lemma yields_cons st l line st1 rest st' :
  pulls st l (Some line) st1 -> yields st1 l rest st' ->
  yields st l (line :: rest) st'.
Proof.
  intros [f1 Hn] [f2 Hd]. exists (S (Nat.max f1 f2)). simpl.
  rewrite (next_mono f1 (Nat.max f1 f2) _ _ _ Hn ltac:(lia)).
  now rewrite (drain_mono f2 (Nat.max f1 f2) _ _ _ Hd ltac:(lia)).
Qed.

Lemma yields_inv st l xs st' :
  yields st l xs st' ->
  match xs with
  | [] => pulls st l None st'
  | line :: rest =>
    exists st1, pulls st l (Some line) st1 /\ yields st1 l rest st'
  end.
Proof.
  intros [[| fuel] Hd]; [discriminate |]. simpl in Hd.
  destruct (next fuel l st) as [[[line |] st1] |] eqn:Hn; [| | discriminate].
  - destruct (drain fuel l st1) as [[rest st2] |] eqn:Hr; [| discriminate].
    simplify_eq/=. exists st1. split; [now exists fuel | now exists fuel].
  - simplify_eq/=. now exists fuel.
Qed.

Lemma takes_O st l : takes st l 0 [] st.
Proof. now exists 0%nat. Qed.

Lemma takes_S_stop st l n st' : pulls st l None st' -> takes st l (S n) [] st'.
Proof. intros [fuel Hn]. exists fuel. simpl. now rewrite Hn. Qed.

Lemma takes_S_line st l n line st1 rest st' :
  pulls st l (Some line) st1 -> takes st1 l n rest st' ->
  takes st l (S n) (line :: rest) st'.
Proof.
  intros [f1 Hn] [f2 Ht]. exists (Nat.max f1 f2). simpl.
  rewrite (next_mono f1 (Nat.max f1 f2) _ _ _ Hn ltac:(lia)).
  now rewrite (take_lines_mono n f2 (Nat.max f1 f2) _ _ _ Ht ltac:(lia)).
Qed.

Lemma takes_S_inv st l n xs st' :
  takes st l (S n) xs st' ->
  match xs with
  | [] => pulls st l None st'
  | line :: rest =>
    exists st1, pulls st l (Some line) st1 /\ takes st1 l n rest st'
  end.
Proof.
  intros [fuel Ht]. simpl in Ht.
  destruct (next fuel l st) as [[[line |] st1] |] eqn:Hn; [| | discriminate].
  - destruct (take_lines fuel n l st1) as [[rest st2] |] eqn:Hr; [| discriminate].
    simplify_eq/=. exists st1. split; [now exists fuel | now exists fuel].
  - simplify_eq/=. now exists fuel.
Qed.

(** ** A pull looks at no iterator allocated later *)

Lemma next_app fuel : forall l st r st' ext,
  next fuel l st = Some (r, st') ->
  length st' = length st /\ next fuel l (st ++ ext) = Some (r, st' ++ ext).
Proof.
  induction fuel as [| fuel IH]; intros l st r st' ext Hn; [discriminate |].
  simpl in *.
  destruct (st !! l) as [it |] eqn:Hl; [| discriminate].
  rewrite (lookup_app_l_Some _ _ _ _ Hl).
  pose proof (lookup_lt_Some _ _ _ Hl) as Hlt.
  destruct it as [items pos | i n | lines status | lines needle |].
  - destruct (items !! pos); simplify_eq/=;
      rewrite ?length_insert, ?insert_app_l by lia; auto.
  - case_bool_decide; simplify_eq/=;
      rewrite ?length_insert, ?insert_app_l by lia; auto.
  - destruct (next fuel lines st) as [[[line |] st1] |] eqn:Hup; [| | done];
      destruct (IH _ _ _ _ ext Hup) as [Hlen ->].
    + destruct (str_contains _ line); [by simplify_eq/= |].
      destruct (IH _ _ _ _ ext Hn) as [Hlen' ->]. split; [congruence | done].
    + simplify_eq/=. rewrite length_insert, insert_app_l by lia. auto.
  - destruct (next fuel lines st) as [[[line |] st1] |] eqn:Hup; [| | done];
      destruct (IH _ _ _ _ ext Hup) as [Hlen ->].
    + destruct (str_contains _ line); [by simplify_eq/= |].
      destruct (IH _ _ _ _ ext Hn) as [Hlen' ->]. split; [congruence | done].
    + simplify_eq/=. rewrite length_insert, insert_app_l by lia. auto.
  - by simplify_eq/=.
Qed.

Lemma pulls_length st l r st' : pulls st l r st' -> length st' = length st.
Proof. intros [fuel Hn]. now apply (next_app fuel l st r st' []). Qed.

Lemma pulls_app st l r st' ext :
  pulls st l r st' -> pulls (st ++ ext) l r (st' ++ ext).
Proof. intros [fuel Hn]. exists fuel. now apply next_app. Qed.

Lemma yields_length st l xs : forall st',
  yields st l xs st' -> length st' = length st.
Proof.
  revert st. induction xs as [| x xs IH]; intros st st' Hy;
    apply yields_inv in Hy.
  - now apply pulls_length in Hy.
  - destruct Hy as (st1 & Hp & Hy). apply pulls_length in Hp.
    rewrite <- Hp. now apply IH.
Qed.

(** ** One pull of a filtering stage *)

Lemma insert_middle (sa sb : store) (x y : iterator) :
  <[length sa := y]> (sa ++ x :: sb) = sa ++ y :: sb.
Proof. induction sa as [| a sa IH]; simpl; [done | by rewrite IH]. Qed.

Lemma next_stage fuel l st it lines p :
  st !! l = Some it -> stage_of it = Some (lines, p) ->
  next (S fuel) l st
  = match next fuel lines st with
    | None => None
    | Some (None, st') => Some (None, <[l := Exhausted]> st')
    | Some (Some line, st') =>
      if p line then Some (Some line, st') else next fuel l st'
    end.
Proof.
  intros Hl Hs. simpl. rewrite Hl.
  destruct it; simplify_eq/=; reflexivity.
Qed.

Section Stage.
Variables (it : iterator) (lines : loc) (p : string -> bool).
Hypothesis Hstage : stage_of it = Some (lines, p).
Variable sb : store.

(** The stage sits at [length sa], after the iterators [sa] its upstream
    is made of. *)
Lemma pulls_stage_stop sa sa' :
  pulls sa lines None sa' ->
  pulls (sa ++ it :: sb) (length sa) None (sa' ++ Exhausted :: sb).
Proof.
  intros [fuel Hn]. exists (S fuel).
  destruct (next_app fuel _ _ _ _ (it :: sb) Hn) as [Hlen Hn'].
  rewrite (next_stage fuel _ _ it lines p) by (by rewrite ?list_lookup_middle).
  rewrite Hn'. rewrite <- Hlen.
  now rewrite insert_middle.
Qed.

Lemma pulls_stage_match sa sa' line :
  pulls sa lines (Some line) sa' -> p line = true ->
  pulls (sa ++ it :: sb) (length sa) (Some line) (sa' ++ it :: sb).
Proof.
  intros [fuel Hn] Hp. exists (S fuel).
  destruct (next_app fuel _ _ _ _ (it :: sb) Hn) as [Hlen Hn'].
  rewrite (next_stage fuel _ _ it lines p) by (by rewrite ?list_lookup_middle).
  now rewrite Hn', Hp.
Qed.

Lemma pulls_stage_skip sa sa' line r st' :
  pulls sa lines (Some line) sa' -> p line = false ->
  pulls (sa' ++ it :: sb) (length sa') r st' ->
  pulls (sa ++ it :: sb) (length sa) r st'.
Proof.
  intros [f1 Hn] Hp [f2 Hr]. exists (S (Nat.max f1 f2)).
  destruct (next_app f1 _ _ _ _ (it :: sb) Hn) as [Hlen Hn'].
  rewrite (next_stage _ _ _ it lines p) by (by rewrite ?list_lookup_middle).
  rewrite (next_mono f1 (Nat.max f1 f2) _ _ _ Hn' ltac:(lia)), Hp.
  rewrite <- Hlen. now apply (next_mono f2); [| lia].
Qed.

(** Draining the stage gives the upstream lines that pass its test, in
    the order of the upstream. *)
Lemma yields_stage xs : forall sa sa',
  yields sa lines xs sa' ->
  yields (sa ++ it :: sb) (length sa) (List.filter p xs)
         (sa' ++ Exhausted :: sb).
Proof.
  induction xs as [| x xs IH]; intros sa sa' Hy; apply yields_inv in Hy.
  - apply yields_nil. now apply pulls_stage_stop.
  - destruct Hy as (sa1 & Hp & Hy). simpl.
    pose proof (pulls_length _ _ _ _ Hp) as Hlen.
    specialize (IH sa1 sa' Hy).
    destruct (p x) eqn:Hpx.
    + apply (yields_cons _ _ _ (sa1 ++ it :: sb)).
      * now apply pulls_stage_match.
      * now rewrite <- Hlen.
    + apply yields_inv in IH. destruct (List.filter p xs) as [| y ys].
      * apply yields_nil. now apply (pulls_stage_skip sa sa1 x).
      * destruct IH as (st1 & Hp1 & Hy1).
        apply (yields_cons _ _ _ st1); [| now rewrite <- Hlen].
        now apply (pulls_stage_skip sa sa1 x).
Qed.

(** Taking [j] lines from the stage: either [j] lines come and the
    upstream stands where taking [n] lines from it directly would leave
    it, the last of these being the last line that came; or the upstream
    has been drained. *)
Lemma takes_stage xs : forall sa sa_end j,
  yields sa lines xs sa_end ->
  exists ys st', takes (sa ++ it :: sb) (length sa) j ys st'
    /\ ((length ys = j
         /\ exists n zs sa', takes sa lines n zs sa' /\ length zs = n
              /\ st' = sa' ++ it :: sb
              /\ ys = List.filter p zs /\ last zs = last ys)
        \/ ((length ys < j)%nat /\ ys = List.filter p xs
            /\ st' = sa_end ++ Exhausted :: sb)).
Proof.
  induction xs as [| x xs IH]; intros sa sa_end [| j] Hy;
    try (exists [], (sa ++ it :: sb); split; [apply takes_O |];
         left; split; [done |]; exists 0%nat, [], sa;
         repeat split; apply takes_O);
    apply yields_inv in Hy.
  - exists [], (sa_end ++ Exhausted :: sb). split.
    + apply takes_S_stop. now apply pulls_stage_stop.
    + right. simpl. repeat split. lia.
  - destruct Hy as (sa1 & Hp & Hy).
    pose proof (pulls_length _ _ _ _ Hp) as Hlen.
    destruct (p x) eqn:Hpx.
    + destruct (IH sa1 sa_end j Hy) as (ys & st' & Ht & Hcase).
      exists (x :: ys), st'. split.
      * apply (takes_S_line _ _ _ _ (sa1 ++ it :: sb));
          [now apply pulls_stage_match | now rewrite <- Hlen].
      * destruct Hcase as [(Hj & n & zs & sa' & Hz & Hn & -> & -> & Hlast)
                          | (Hj & -> & ->)].
        -- left. split; [simpl; lia |]. exists (S n), (x :: zs), sa'.
           repeat split.
           ++ now apply (takes_S_line _ _ _ _ sa1).
           ++ simpl; lia.
           ++ simpl. now rewrite Hpx.
           ++ rewrite !last_cons. now rewrite Hlast.
        -- right. simpl. rewrite Hpx. repeat split. simpl; lia.
    + destruct (IH sa1 sa_end (S j) Hy) as (ys & st' & Ht & Hcase).
      exists ys, st'. split.
      * apply takes_S_inv in Ht.
        destruct ys as [| y ys].
        -- apply takes_S_stop. now apply (pulls_stage_skip sa sa1 x).
        -- destruct Ht as (st1 & Hp1 & Ht).
           apply (takes_S_line _ _ _ _ st1); [| now rewrite <- Hlen].
           now apply (pulls_stage_skip sa sa1 x).
      * destruct Hcase as [(Hj & n & zs & sa' & Hz & Hn & -> & -> & Hlast)
                          | (Hj & -> & ->)].
        -- left. split; [done |]. exists (S n), (x :: zs), sa'.
           repeat split.
           ++ now apply (takes_S_line _ _ _ _ sa1).
           ++ simpl; lia.
           ++ simpl. now rewrite Hpx.
           ++ rewrite last_cons, Hlast.
              destruct (last (List.filter p zs)) eqn:Hl; [done |].
              apply last_None in Hl. now rewrite Hl in Hj.
        -- right. simpl. rewrite Hpx. now repeat split.
Qed.

End Stage.

(** ** The source *)

Lemma pulls_read_line st l i n :
  st !! l = Some (ReadLargeFile i n) -> i < n ->
  pulls st l (Some (logline i)) (<[l := ReadLargeFile (i + 1) n]> st).
Proof.
  intros Hl Hi. exists 1%nat. simpl. rewrite Hl.
  now rewrite bool_decide_eq_true_2.
Qed.

Lemma pulls_read_stop st l i n :
  st !! l = Some (ReadLargeFile i n) -> n <= i ->
  pulls st l None (<[l := Exhausted]> st).
Proof.
  intros Hl Hi. exists 1%nat. simpl. rewrite Hl.
  now rewrite bool_decide_eq_false_2 by lia.
Qed.

Lemma yields_read_large_file k : forall st l i n,
  st !! l = Some (ReadLargeFile i n) -> Z.to_nat (n - i) = k ->
  yields st l (logline <$> seqZ i (n - i)) (<[l := Exhausted]> st).
Proof.
  induction k as [| k IH]; intros st l i n Hl Hk.
  - rewrite seqZ_nil by lia. apply yields_nil.
    apply (pulls_read_stop st l i n); [done | lia].
  - rewrite seqZ_cons by lia. rewrite fmap_cons.
    apply (yields_cons _ _ _ (<[l := ReadLargeFile (i + 1) n]> st)).
    + apply pulls_read_line; [done | lia].
    + replace (Z.succ i) with (i + 1) by lia.
      replace (Z.pred (n - i)) with (n - (i + 1)) by lia.
      rewrite <- (list_insert_insert_eq st l Exhausted (ReadLargeFile (i + 1) n)).
      apply IH; [| lia].
      apply list_lookup_insert_eq. now apply lookup_lt_Some in Hl.
Qed.

Lemma takes_read_large_file k : forall st l i n,
  st !! l = Some (ReadLargeFile i n) -> Z.of_nat k <= n - i ->
  takes st l k (logline <$> seqZ i (Z.of_nat k))
        (<[l := ReadLargeFile (i + Z.of_nat k) n]> st).
Proof.
  induction k as [| k IH]; intros st l i n Hl Hk.
  - replace (i + Z.of_nat 0) with i by lia. rewrite list_insert_id by done.
    apply takes_O.
  - rewrite seqZ_cons by lia. rewrite fmap_cons.
    apply (takes_S_line _ _ _ _ (<[l := ReadLargeFile (i + 1) n]> st)).
    + apply pulls_read_line; [done | lia].
    + replace (Z.succ i) with (i + 1) by lia.
      replace (Z.pred (Z.of_nat (S k))) with (Z.of_nat k) by lia.
      replace (i + Z.of_nat (S k)) with (i + 1 + Z.of_nat k) by lia.
      rewrite <- (list_insert_insert_eq st l
                    (ReadLargeFile (i + 1 + Z.of_nat k) n)
                    (ReadLargeFile (i + 1) n)).
      apply IH; [| lia].
      apply list_lookup_insert_eq. now apply lookup_lt_Some in Hl.
Qed.

(** C4: for [N >= 0], the generator [read_large_file(N)] yields exactly
    the [N] lines of the indices [0 .. N-1], in increasing order.  A
    second call makes a generator of its own: whatever has been consumed
    from one, the other still yields all its lines from index 0, and the
    first goes on from where it stood. *)
Theorem read_large_file_yields (N : Z) (st : store) :
  0 <= N ->
  let '(g1, st1) := read_large_file N st in
  (exists st', yields st1 g1 (logline <$> seqZ 0 N) st')
  /\ Z.of_nat (length (logline <$> seqZ 0 N)) = N
  /\ forall (M : Z) (k : nat), 0 <= M -> Z.of_nat k <= N ->
     let '(g2, st2) := read_large_file M st1 in
     g1 <> g2
     /\ (exists st3 st4 st5,
           takes st2 g1 k (logline <$> seqZ 0 (Z.of_nat k)) st3
           /\ yields st3 g2 (logline <$> seqZ 0 M) st4
           /\ yields st4 g1 (logline <$> seqZ (Z.of_nat k) (N - Z.of_nat k)) st5)
     /\ (exists st3 st4,
           yields st2 g2 (logline <$> seqZ 0 M) st3
           /\ yields st3 g1 (logline <$> seqZ 0 N) st4).
Proof.
  intros HN. unfold read_large_file, alloc.
  assert (Hg1 : forall ext, (st ++ [ReadLargeFile 0 N] ++ ext) !! length st
                            = Some (ReadLargeFile 0 N))
    by (intros ext; apply list_lookup_middle; done).
  split; [| split].
  - eexists. replace N with (N - 0) at 2 by lia.
    apply (yields_read_large_file (Z.to_nat N)); [| lia].
    apply (Hg1 []).
  - rewrite length_fmap, length_seqZ. lia.
  - intros M k HM Hk.
    set (st2 := (st ++ [ReadLargeFile 0 N]) ++ [ReadLargeFile 0 M]).
    set (g1 := length st). set (g2 := length (st ++ [ReadLargeFile 0 N])).
    assert (Hne : g1 <> g2) by (unfold g1, g2; rewrite length_app; simpl; lia).
    assert (H1 : st2 !! g1 = Some (ReadLargeFile 0 N)).
    { unfold st2. rewrite <- app_assoc. apply Hg1. }
    assert (H2 : st2 !! g2 = Some (ReadLargeFile 0 M))
      by (apply list_lookup_middle; done).
    split; [done |]. split.
    + pose proof (takes_read_large_file k st2 g1 0 N H1 ltac:(lia)) as Ht.
      set (st3 := <[g1 := ReadLargeFile (0 + Z.of_nat k) N]> st2) in *.
      assert (H2' : st3 !! g2 = Some (ReadLargeFile 0 M))
        by (unfold st3; rewrite list_lookup_insert_ne; done).
      pose proof (yields_read_large_file (Z.to_nat M) st3 g2 0 M H2' ltac:(lia)) as Hy.
      set (st4 := <[g2 := Exhausted]> st3) in *.
      assert (H1' : st4 !! g1 = Some (ReadLargeFile (0 + Z.of_nat k) N)).
      { unfold st4, st3. rewrite list_lookup_insert_ne by done.
        apply list_lookup_insert_eq. now apply lookup_lt_Some in H1. }
      pose proof (yields_read_large_file (Z.to_nat (N - Z.of_nat k)) st4 g1
                    _ N H1' ltac:(lia)) as Hy1.
      replace (M - 0) with M in Hy by lia.
      replace (0 + Z.of_nat k) with (Z.of_nat k) in Hy1 by lia.
      eexists _, _, _. split; [exact Ht |]. split; [exact Hy | exact Hy1].
    + pose proof (yields_read_large_file (Z.to_nat M) st2 g2 0 M H2 ltac:(lia)) as Hy.
      set (st3 := <[g2 := Exhausted]> st2) in *.
      assert (H1' : st3 !! g1 = Some (ReadLargeFile 0 N))
        by (unfold st3; rewrite list_lookup_insert_ne; done).
      pose proof (yields_read_large_file (Z.to_nat N) st3 g1 0 N H1' ltac:(lia)) as Hy1.
      replace (M - 0) with M in Hy by lia.
      replace (N - 0) with N in Hy1 by lia.
      eexists _, _. split; [exact Hy | exact Hy1].
Qed.

(** ** The stages *)

Lemma filter_fmap {X Y} (p : Y -> bool) (f : X -> Y) (l : list X) :
  List.filter p (f <$> l) = f <$> List.filter (fun x => p (f x)) l.
Proof.
  induction l as [| x l IH]; [done |]. rewrite fmap_cons. simpl.
  destruct (p (f x)); [rewrite fmap_cons |]; now rewrite IH.
Qed.

Lemma filter_twice {X} (p q : X -> bool) (l : list X) :
  List.filter q (List.filter p l) = List.filter (fun x => p x && q x) l.
Proof.
  induction l as [| x l IH]; [done |]. simpl.
  destruct (p x); simpl; [destruct (q x) |]; now rewrite IH.
Qed.

Lemma filter_all {X} (p : X -> bool) (l : list X) :
  (forall x, x ∈ l -> p x = true) -> List.filter p l = l.
Proof.
  induction l as [| x l IH]; intros Hall; [done |]. simpl.
  rewrite (Hall x) by left. f_equal. apply IH. intros y Hy. apply Hall.
  now right.
Qed.

Lemma elem_of_filter {X} (p : X -> bool) (l : list X) (x : X) :
  x ∈ List.filter p l <-> x ∈ l /\ p x = true.
Proof. rewrite !list_elem_of_In. apply filter_In. Qed.

Lemma sorted_seqZ (m n : Z) : StronglySorted Z.lt (seqZ m n).
Proof.
  remember (Z.to_nat n) as k eqn:Hk. revert m n Hk.
  induction k as [| k IH]; intros m n Hk.
  - rewrite seqZ_nil by lia. constructor.
  - rewrite seqZ_cons by lia. constructor; [apply IH; lia |].
    apply Forall_seqZ. lia.
Qed.

Lemma sorted_filter {X} (R : X -> X -> Prop) (p : X -> bool) (l : list X) :
  StronglySorted R l -> StronglySorted R (List.filter p l).
Proof.
  induction 1 as [| x l Hs IH Hall]; [constructor |]. simpl.
  destruct (p x); [| done]. constructor; [done |].
  rewrite Forall_forall in *. intros y Hy.
  apply elem_of_filter in Hy as [Hy _]. auto.
Qed.

(** What the allocating calls build, in the shape the stage lemmas use. *)
Lemma yields_filter_logs st lines status xs st1 :
  yields st lines xs st1 ->
  yields (st ++ [FilterLogs lines status]) (length st)
         (List.filter (str_contains ("status=" +:+ status)) xs)
         (st1 ++ [Exhausted]).
Proof. now apply (yields_stage (FilterLogs lines status)). Qed.

Lemma yields_search_logs st lines needle xs st1 :
  yields st lines xs st1 ->
  yields (st ++ [SearchLogs lines needle]) (length st)
         (List.filter (str_contains needle) xs)
         (st1 ++ [Exhausted]).
Proof. now apply (yields_stage (SearchLogs lines needle)). Qed.

(** C5: a stage yields exactly the upstream lines that pass its test, in
    the upstream's order, whatever the upstream and the status or needle
    are; and the pipeline [filter_logs(search_logs(read_large_file(N),
    needle), status)] yields the lines of a strictly increasing run of
    indices, without repetition: the indices of [0 .. N-1] whose line
    passes both tests, and all of them. *)
Theorem stages_filter_in_order :
  (forall st lines status xs st1,
     yields st lines xs st1 ->
     let '(g, st') := filter_logs lines status st in
     exists st2,
       yields st' g (List.filter (str_contains ("status=" +:+ status)) xs) st2)
  /\ (forall st lines needle xs st1,
     yields st lines xs st1 ->
     let '(g, st') := search_logs lines needle st in
     exists st2, yields st' g (List.filter (str_contains needle) xs) st2)
  /\ (forall N needle status st,
     let '(source, st1) := read_large_file N st in
     let '(found, st2) := search_logs source needle st1 in
     let '(logs, st3) := filter_logs found status st2 in
     exists idxs st',
       yields st3 logs (logline <$> idxs) st'
       /\ StronglySorted Z.lt idxs /\ NoDup idxs
       /\ forall i, i ∈ idxs <->
            (0 <= i < N /\ str_contains needle (logline i) = true
             /\ str_contains ("status=" +:+ status) (logline i) = true)).
Proof.
  split; [| split].
  - intros st lines status xs st1 Hy. eexists.
    exact (yields_filter_logs _ _ _ _ _ Hy).
  - intros st lines needle xs st1 Hy. eexists.
    exact (yields_search_logs _ _ _ _ _ Hy).
  - intros N needle status st. unfold read_large_file, search_logs, filter_logs, alloc.
    assert (Hk : Z.to_nat (N - 0) = Z.to_nat N) by lia.
    pose proof (yields_read_large_file (Z.to_nat N) (st ++ [ReadLargeFile 0 N])
                  (length st) 0 N ltac:(by apply list_lookup_middle) Hk)
      as Hsrc.
    rewrite insert_middle in Hsrc.
    apply (yields_search_logs _ _ needle) in Hsrc.
    apply (yields_filter_logs _ _ status) in Hsrc.
    rewrite !length_app in Hsrc. rewrite !length_app.
    rewrite filter_twice, filter_fmap in Hsrc.
    replace (N - 0) with N in Hsrc by lia.
    eexists _, _. split; [exact Hsrc |]. split; [| split].
    + apply sorted_filter, sorted_seqZ.
    + apply NoDup_ListNoDup, List.NoDup_filter, NoDup_ListNoDup, NoDup_seqZ.
    + intros i. rewrite elem_of_filter, elem_of_seqZ, andb_true_iff.
      intuition lia.
Qed.

(** ** Every iterator comes to an end *)

Lemma yields_list_iterator k : forall st l items pos,
  st !! l = Some (ListIterator items pos) -> (length items - pos = k)%nat ->
  exists st', yields st l (drop pos items) st'.
Proof.
  induction k as [| k IH]; intros st l items pos Hl Hk.
  - exists st. rewrite drop_ge by lia. apply yields_nil. exists 1%nat.
    simpl. rewrite Hl. now rewrite lookup_ge_None_2 by lia.
  - destruct (lookup_lt_is_Some_2 items pos ltac:(lia)) as [x Hx].
    destruct (IH (<[l := ListIterator items (S pos)]> st) l items (S pos))
      as [st' Hy]; [| lia |].
    { apply list_lookup_insert_eq. now apply lookup_lt_Some in Hl. }
    exists st'. rewrite (drop_S _ _ _ Hx).
    apply (yields_cons _ _ _ (<[l := ListIterator items (S pos)]> st));
      [| done].
    exists 1%nat. simpl. now rewrite Hl, Hx.
Qed.

Lemma well_formed_take (st : store) (n : nat) :
  well_formed st -> well_formed (take n st).
Proof.
  intros Hwf l it lines p Hl. apply (Hwf l it lines p).
  apply lookup_take_Some in Hl. tauto.
Qed.

Lemma well_formed_alloc (st : store) (it : iterator) :
  well_formed st ->
  (forall lines p, stage_of it = Some (lines, p) -> (lines < length st)%nat) ->
  well_formed (alloc it st).2.
Proof.
  intros Hwf Hit l it' lines p Hl Hs. simpl in Hl.
  apply lookup_app_Some in Hl as [Hl | [Hge Hl]].
  - now apply (Hwf l it' lines p).
  - destruct (l - length st)%nat as [| ?] eqn:Hd; simplify_eq/=.
    specialize (Hit lines p Hs). lia.
Qed.

(** In a well-formed store every iterator can be drained: with enough
    fuel, [next] always answers. *)
Lemma well_formed_yields (l : loc) : forall st,
  well_formed st -> (l < length st)%nat -> exists xs st', yields st l xs st'.
Proof.
  induction l as [l IH] using lt_wf_ind. intros st Hwf Hlt.
  destruct (lookup_lt_is_Some_2 st l Hlt) as [it Hl].
  rewrite <- (take_drop_middle st l it Hl).
  assert (Hlen : length (take l st) = l) by (rewrite length_take; lia).
  assert (Hstage : forall lines p, stage_of it = Some (lines, p) ->
            exists xs st',
              yields (take l st ++ it :: drop (S l) st) l xs st').
  { intros lines p Hs.
    destruct (IH lines (Hwf l it lines p Hl Hs) (take l st))
      as (xs & sa' & Hy);
      [now apply well_formed_take | rewrite Hlen; now apply (Hwf l it lines p) |].
    pose proof (yields_stage it lines p Hs (drop (S l) st) xs _ _ Hy) as Hy'.
    rewrite Hlen in Hy'. eauto. }
  assert (Hmid : (take l st ++ it :: drop (S l) st) !! l = Some it)
    by (apply list_lookup_middle; lia).
  destruct it as [items pos | i n | lines status | lines needle |].
  - destruct (yields_list_iterator (length items - pos) _ l items pos
                Hmid eq_refl) as [st' Hy]. eauto.
  - eexists _, _.
    exact (yields_read_large_file (Z.to_nat (n - i)) _ l i n Hmid eq_refl).
  - now apply (Hstage lines (str_contains ("status=" +:+ status))).
  - now apply (Hstage lines (str_contains needle)).
  - eexists [], _. apply yields_nil. exists 1%nat. simpl. now rewrite Hmid.
Qed.

(** ** Grouping a chain of stages *)




(** ** The test of [filter_logs] *)

Lemma logline_status_prefix (i : Z) (status : string) :
  String.prefix status "OK" = true ->
  str_contains ("status=" +:+ status) (logline i) = true.
Proof.
  intros [rest Hrest]%prefix_spec. apply str_contains_spec.
  exists ("logline " +:+ pretty i +:+ " - "), rest.
  unfold logline. rewrite !str_app_assoc. do 2 f_equal.
  change (" - status=OK") with (" - status=" +:+ "OK"). now rewrite Hrest.
Qed.

(** C10: [filter_logs] keeps a line exactly when ["status="] followed by
    the status argument occurs somewhere in it; so over the lines of
    [read_large_file] it keeps every line for each status that is a
    prefix of ["OK"], the empty one and ["O"] among them. *)
Theorem filter_logs_is_containment :
  (forall st lines status xs st1,
     yields st lines xs st1 ->
     let '(g, st') := filter_logs lines status st in
     exists st2,
       yields st' g (List.filter (str_contains ("status=" +:+ status)) xs) st2
       /\ forall line,
            str_contains ("status=" +:+ status) line = true
            <-> exists pre post, line = pre +:+ ("status=" +:+ status) +:+ post)
  /\ (forall N status st,
     String.prefix status "OK" = true ->
     let '(source, st1) := read_large_file N st in
     let '(g, st2) := filter_logs source status st1 in
     exists st', yields st2 g (logline <$> seqZ 0 N) st')
  /\ String.prefix "" "OK" = true /\ String.prefix "O" "OK" = true
  /\ String.prefix "OK" "OK" = true.
Proof.
  split; [| split; [| done]].
  - intros st lines status xs st1 Hy. eexists. split.
    + exact (yields_filter_logs _ _ _ _ _ Hy).
    + intros line. apply str_contains_spec.
  - intros N status st Hpre. unfold read_large_file, filter_logs, alloc.
    assert (Hk : Z.to_nat (N - 0) = Z.to_nat N) by lia.
    pose proof (yields_read_large_file (Z.to_nat N) (st ++ [ReadLargeFile 0 N])
                  (length st) 0 N ltac:(by apply list_lookup_middle) Hk)
      as Hsrc.
    apply (yields_filter_logs _ _ status) in Hsrc.
    rewrite filter_all in Hsrc.
    + replace (N - 0) with N in Hsrc by lia. eexists. exact Hsrc.
    + intros line (i & -> & _)%list_elem_of_fmap.
      now apply logline_status_prefix.
Qed.

(** ** How far a stage reads ahead *)

Lemma takes_filter_logs st lines status xs st_end j :
  yields st lines xs st_end ->
  exists ys st', takes (st ++ [FilterLogs lines status]) (length st) j ys st'
    /\ ((length ys = j
         /\ exists n zs sa', takes st lines n zs sa' /\ length zs = n
              /\ st' = sa' ++ [FilterLogs lines status]
              /\ ys = List.filter (str_contains ("status=" +:+ status)) zs
              /\ last zs = last ys)
        \/ ((length ys < j)%nat
            /\ ys = List.filter (str_contains ("status=" +:+ status)) xs
            /\ st' = st_end ++ [Exhausted])).
Proof. now apply (takes_stage (FilterLogs lines status)). Qed.

Lemma takes_search_logs st lines needle xs st_end j :
  yields st lines xs st_end ->
  exists ys st', takes (st ++ [SearchLogs lines needle]) (length st) j ys st'
    /\ ((length ys = j
         /\ exists n zs sa', takes st lines n zs sa' /\ length zs = n
              /\ st' = sa' ++ [SearchLogs lines needle]
              /\ ys = List.filter (str_contains needle) zs
              /\ last zs = last ys)
        \/ ((length ys < j)%nat
            /\ ys = List.filter (str_contains needle) xs
            /\ st' = st_end ++ [Exhausted])).
Proof. now apply (takes_stage (SearchLogs lines needle)). Qed.

(** Over [read_large_file], the default filter passes every line on, so
    [j] lines taken are [j] lines read. *)
Lemma takes_filter_read_large_file j : forall st i N,
  i + Z.of_nat j <= N ->
  takes (st ++ [ReadLargeFile i N] ++ [FilterLogs (length st) "OK"])
        (length (st ++ [ReadLargeFile i N])) j
        (logline <$> seqZ i (Z.of_nat j))
        (st ++ [ReadLargeFile (i + Z.of_nat j) N]
            ++ [FilterLogs (length st) "OK"]).
Proof.
  induction j as [| j IH]; intros st i N Hj.
  - replace (i + Z.of_nat 0) with i by lia. apply takes_O.
  - rewrite seqZ_cons by lia. rewrite fmap_cons.
    replace (Z.succ i) with (i + 1) by lia.
    replace (Z.pred (Z.of_nat (S j))) with (Z.of_nat j) by lia.
    replace (i + Z.of_nat (S j)) with (i + 1 + Z.of_nat j) by lia.
    apply (takes_S_line _ _ _ _
             (st ++ [ReadLargeFile (i + 1) N] ++ [FilterLogs (length st) "OK"])).
    + assert (Hp : pulls (st ++ [ReadLargeFile i N]) (length st)
                     (Some (logline i))
                     (<[length st := ReadLargeFile (i + 1) N]>
                        (st ++ [ReadLargeFile i N])))
        by (apply pulls_read_line; [by apply list_lookup_middle | lia]).
      rewrite insert_middle in Hp. rewrite !app_assoc.
      apply (pulls_stage_match (FilterLogs (length st) "OK") (length st)
               (str_contains ("status=" +:+ "OK")) eq_refl []
               (st ++ [ReadLargeFile i N]) (st ++ [ReadLargeFile (i + 1) N]));
        [exact Hp | now apply logline_status_prefix].
    + replace (length (st ++ [ReadLargeFile i N]))
        with (length (st ++ [ReadLargeFile (i + 1) N]))
        by (rewrite !length_app; done).
      apply IH. lia.
Qed.

(** C6: taking [j] lines from a stage leaves its upstream where taking
    some [n] lines from the upstream itself leaves it, and the last of
    these [n] lines is the [j]-th line the stage gave: nothing is read
    past the [j]-th match, and the stage is back in its loop holding no
    line (or, when fewer than [j] lines match, the upstream is drained).
    So five lines taken from [filter_logs(read_large_file(1_000_000))]
    are five lines read, and the loop of the demo, which asks for a
    sixth line before it breaks, reads six. *)
Theorem stages_read_no_further :
  (forall st lines status xs st_end j,
     yields st lines xs st_end ->
     let '(g, st0) := filter_logs lines status st in
     exists ys st', takes st0 g j ys st'
       /\ ((length ys = j
            /\ exists n zs sa', takes st lines n zs sa' /\ length zs = n
                 /\ st' = sa' ++ [FilterLogs lines status]
                 /\ ys = List.filter (str_contains ("status=" +:+ status)) zs
                 /\ last zs = last ys)
           \/ ((length ys < j)%nat
               /\ ys = List.filter (str_contains ("status=" +:+ status)) xs
               /\ st' = st_end ++ [Exhausted])))
  /\ (forall st lines needle xs st_end j,
     yields st lines xs st_end ->
     let '(g, st0) := search_logs lines needle st in
     exists ys st', takes st0 g j ys st'
       /\ ((length ys = j
            /\ exists n zs sa', takes st lines n zs sa' /\ length zs = n
                 /\ st' = sa' ++ [SearchLogs lines needle]
                 /\ ys = List.filter (str_contains needle) zs
                 /\ last zs = last ys)
           \/ ((length ys < j)%nat
               /\ ys = List.filter (str_contains needle) xs
               /\ st' = st_end ++ [Exhausted])))
  /\ (forall (N : Z) (j : nat),
     Z.of_nat j <= N ->
     let '(source, st1) := read_large_file N [] in
     let '(logs, st2) := filter_logs source "OK" st1 in
     takes st2 logs j (logline <$> seqZ 0 (Z.of_nat j))
           [ReadLargeFile (Z.of_nat j) N; FilterLogs source "OK"])
  /\ (let '(source, st1) := read_large_file 1000000 [] in
      let '(logs, st2) := filter_logs source "OK" st1 in
      take_lines 2 5 logs st2
      = Some (logline <$> seqZ 0 5,
              [ReadLargeFile 5 1000000; FilterLogs source "OK"]))
  /\ demo 10
     = Some (logline <$> seqZ 0 5,
             [ReadLargeFile 6 1000000; SearchLogs 0%nat "logline";
              FilterLogs 1%nat "OK"]).
Proof.
  split; [| split; [| split; [| split]]].
  - intros st lines status xs st_end j Hy.
    exact (takes_filter_logs st lines status xs st_end j Hy).
  - intros st lines needle xs st_end j Hy.
    exact (takes_search_logs st lines needle xs st_end j Hy).
  - intros N j Hj.
    exact (takes_filter_read_large_file j [] 0 N ltac:(lia)).
  - vm_compute. reflexivity.
  - vm_compute. reflexivity.
Qed.

(** ** Concrete runs *)

(** Two stages over one upstream share it: what one has pulled is gone
    for the other.  Two calls of [read_large_file] share nothing. *)
Example shared_upstream :
  let '(source, st) := read_large_file 4 [] in
  let '(a, st) := search_logs source "logline" st in
  let '(b, st) := search_logs source "logline" st in
  ('(xs, st) ← take_lines 3 2 a st; drain 6 b st)
  = Some ([logline 2; logline 3],
          [Exhausted; SearchLogs 0%nat "logline"; Exhausted]).
Proof. vm_compute. reflexivity. Qed.

Example separate_sources :
  let '(s1, st) := read_large_file 4 [] in
  let '(s2, st) := read_large_file 4 st in
  ('(xs, st) ← take_lines 3 2 s1 st; drain 6 s2 st)
  = Some ([logline 0; logline 1; logline 2; logline 3],
          [ReadLargeFile 2 4; Exhausted]).
Proof. vm_compute. reflexivity. Qed.

(** The status is looked for anywhere in the line. *)
Example containment_not_equality :
  let '(lines, st) :=
    iter_list ["a - status=OKAY"; "b - status=ERROR"; "c - nostatus=OK";
               "d - STATUS=OK"; "e - status=OK"] [] in
  let '(logs, st) := filter_logs lines "OK" st in
  drain 8 logs st
  = Some (["a - status=OKAY"; "c - nostatus=OK"; "e - status=OK"],
          [ListIterator ["a - status=OKAY"; "b - status=ERROR";
                         "c - nostatus=OK"; "d - STATUS=OK"; "e - status=OK"] 5;
           Exhausted]).
Proof. vm_compute. reflexivity. Qed.

(** Scenario A: [read_large_file(5)] through [filter_logs(_, "OK")]. *)
Example five_lines_none_dropped :
  let '(source, st) := read_large_file 5 [] in
  let '(logs, st) := filter_logs source "OK" st in
  drain 8 logs st
  = Some (["logline 0 - status=OK"; "logline 1 - status=OK";
           "logline 2 - status=OK"; "logline 3 - status=OK";
           "logline 4 - status=OK"],
          [Exhausted; Exhausted]).
Proof. vm_compute. reflexivity. Qed.

Lemma read_large_file_yields_witness :
  exists st',
    yields [ReadLargeFile 0 3] 0%nat
      ["logline 0 - status=OK"; "logline 1 - status=OK";
       "logline 2 - status=OK"] st'.
Proof.
  exact (proj1 (read_large_file_yields 3 [] ltac:(lia))).
Defined.

Lemma stages_filter_in_order_witness :
  exists st2,
    yields [ListIterator ["a - status=OK"; "b - status=ERROR"; "c - status=OK"] 0;
            FilterLogs 0%nat "OK"] 1%nat
      ["a - status=OK"; "c - status=OK"] st2.
Proof.
  apply (proj1 stages_filter_in_order
           [ListIterator ["a - status=OK"; "b - status=ERROR"; "c - status=OK"] 0]
           0%nat "OK" ["a - status=OK"; "b - status=ERROR"; "c - status=OK"]
           [ListIterator ["a - status=OK"; "b - status=ERROR"; "c - status=OK"] 3]).
  exists 5%nat. vm_compute. reflexivity.
Defined.

Lemma stages_read_no_further_witness :
  takes [ReadLargeFile 0 1000000; FilterLogs 0%nat "OK"] 1%nat 5
    (logline <$> seqZ 0 5)
    [ReadLargeFile 5 1000000; FilterLogs 0%nat "OK"].
Proof.
  apply (proj1 (proj2 (proj2 stages_read_no_further)) 1000000 5%nat). lia.
Defined.


Lemma filter_logs_is_containment_witness :
  exists st',
    yields [ReadLargeFile 0 3; FilterLogs 0%nat "O"] 1%nat
      ["logline 0 - status=OK"; "logline 1 - status=OK";
       "logline 2 - status=OK"] st'.
Proof.
  apply (proj1 (proj2 filter_logs_is_containment) 3 "O" []). reflexivity.
Defined.

(** ** Beyond one drain *)

Lemma pulls_det st l r1 st1 r2 st2 :
  pulls st l r1 st1 -> pulls st l r2 st2 -> r1 = r2 /\ st1 = st2.
Proof.
  intros [f1 H1] [f2 H2].
  pose proof (next_mono f1 (Nat.max f1 f2) _ _ _ H1 ltac:(lia)) as H1'.
  pose proof (next_mono f2 (Nat.max f1 f2) _ _ _ H2 ltac:(lia)) as H2'.
  rewrite H1' in H2'. by simplify_eq/=.
Qed.

Lemma next_stop_again fuel : forall l st st',
  next fuel l st = Some (None, st') -> next 1 l st' = Some (None, st').
Proof.
  induction fuel as [| fuel IH]; intros l st st' Hn; [discriminate |].
  simpl in Hn. destruct (st !! l) as [it |] eqn:Hl; [| discriminate].
  pose proof (lookup_lt_Some _ _ _ Hl) as Hlt.
  assert (Hdone : forall st1, length st1 = length st ->
            next 1 l (<[l := Exhausted]> st1)
            = Some (None, <[l := Exhausted]> st1)).
  { intros st1 Hlen. simpl. rewrite list_lookup_insert_eq by lia. done. }
  destruct it as [items pos | i n | lines status | lines needle |].
  - destruct (items !! pos) eqn:Hi; simplify_eq/=. now rewrite Hl, Hi.
  - case_bool_decide; simplify_eq/=. now apply Hdone.
  - destruct (next fuel lines st) as [[[line |] st1] |] eqn:Hup; [| | done].
    + destruct (str_contains _ line); [done |]. now apply (IH l st1).
    + simplify_eq/=. apply Hdone. now apply (pulls_length st lines None); exists fuel.
  - destruct (next fuel lines st) as [[[line |] st1] |] eqn:Hup; [| | done].
    + destruct (str_contains _ line); [done |]. now apply (IH l st1).
    + simplify_eq/=. apply Hdone. now apply (pulls_length st lines None); exists fuel.
  - simplify_eq/=. now rewrite Hl.
Qed.

Lemma yields_end st l xs : forall st',
  yields st l xs st' -> pulls st' l None st'.
Proof.
  revert st. induction xs as [| x xs IH]; intros st st' Hy;
    apply yields_inv in Hy.
  - destruct Hy as [fuel Hn]. exists 1%nat. now apply (next_stop_again fuel l st).
  - destruct Hy as (st1 & _ & Hy). now apply (IH st1).
Qed.

(** X10: an iterator that has raised [StopIteration] raises it again at
    every later [next], without reading its upstream or changing
    anything; so an iterator that has been drained yields nothing when
    drained again. *)
Theorem exhausted_stays_exhausted :
  (forall st l st', pulls st l None st' -> pulls st' l None st')
  /\ (forall st l xs st', yields st l xs st' -> yields st' l [] st').
Proof.
  split.
  - intros st l st' [fuel Hn]. exists 1%nat.
    now apply (next_stop_again fuel l st).
  - intros st l xs st' Hy. apply yields_nil. now apply (yields_end st l xs).
Qed.

(** X11: consuming in two goes loses and repeats nothing: the lines of a
    bounded take followed by the lines of a drain of what is left are
    the lines one drain of the iterator gives, and the store ends the
    same. *)
Theorem take_then_drain (n : nat) st l ys st1 zs st2 :
  takes st l n ys st1 -> yields st1 l zs st2 -> yields st l (ys ++ zs) st2.
Proof.
  revert st ys. induction n as [| n IH]; intros st ys Ht Hy.
  - destruct Ht as [fuel Ht]. by simplify_eq/=.
  - apply takes_S_inv in Ht. destruct ys as [| y ys].
    + assert (Hstop : pulls st1 l None st1).
      { destruct Ht as [fuel Hn]. exists 1%nat.
        now apply (next_stop_again fuel l st). }
      apply yields_inv in Hy. destruct zs as [| z zs].
      * destruct (pulls_det _ _ _ _ _ _ Hstop Hy) as [_ <-].
        now apply yields_nil.
      * destruct Hy as (st' & Hp & _).
        destruct (pulls_det _ _ _ _ _ _ Hstop Hp) as [[=] _].
    + destruct Ht as (st0 & Hp & Ht). simpl.
      apply (yields_cons _ _ _ st0); [done |]. now apply (IH st0 ys).
Qed.

Lemma str_contains_empty (line : string) : str_contains "" line = true.
Proof. apply str_contains_spec. now exists "", line. Qed.

(** X12: the empty needle is in every line: [search_logs(lines, "")]
    yields all the lines of its upstream, in order. *)
Theorem search_logs_empty_needle st lines xs st1 :
  yields st lines xs st1 ->
  let '(g, st') := search_logs lines "" st in
  exists st2, yields st' g xs st2.
Proof.
  intros Hy. eexists. unfold search_logs, alloc.
  pose proof (yields_search_logs st lines "" xs st1 Hy) as Hs.
  rewrite filter_all in Hs by (intros; apply str_contains_empty). exact Hs.
Qed.

Lemma filter_ext {X} (p q : X -> bool) (l : list X) :
  (forall x, p x = q x) -> List.filter p l = List.filter q l.
Proof.
  intros Heq. induction l as [| x l IH]; [done |]. simpl.
  now rewrite Heq, IH.
Qed.

(** X13: the order of the two stages does not matter for what comes out,
    and the same filter applied twice gives what it gives once:
    [filter_logs(search_logs(lines, needle), status)] and
    [search_logs(filter_logs(lines, status), needle)] yield the same
    lines, and [filter_logs(filter_logs(lines, status), status)] yields
    the lines of [filter_logs(lines, status)]. *)
Theorem stages_commute st lines needle status xs st1 :
  yields st lines xs st1 ->
  (exists ys e1 e2,
     (let '(a, sa) := search_logs lines needle st in
      let '(b, sb) := filter_logs a status sa in yields sb b ys e1)
     /\ (let '(c, sc) := filter_logs lines status st in
         let '(d, sd) := search_logs c needle sc in yields sd d ys e2))
  /\ (exists ys e1 e2,
     (let '(a, sa) := filter_logs lines status st in
      let '(b, sb) := filter_logs a status sa in yields sb b ys e1)
     /\ (let '(c, sc) := filter_logs lines status st in yields sc c ys e2)).
Proof.
  intros Hy. unfold search_logs, filter_logs, alloc.
  pose proof (yields_search_logs st lines needle xs st1 Hy) as Hs.
  pose proof (yields_filter_logs st lines status xs st1 Hy) as Hf.
  pose proof (yields_filter_logs _ _ status _ _ Hs) as Hsf.
  pose proof (yields_search_logs _ _ needle _ _ Hf) as Hfs.
  pose proof (yields_filter_logs _ _ status _ _ Hf) as Hff.
  rewrite !length_app in *. rewrite filter_twice in Hsf, Hfs, Hff.
  split.
  - eexists _, _, _. split; [exact Hsf |].
    rewrite (filter_ext _ (fun x => str_contains ("status=" +:+ status) x
                                    && str_contains needle x))
      by (intros; apply andb_comm).
    exact Hfs.
  - eexists _, _, _. split; [exact Hff |].
    rewrite (filter_ext _ (str_contains ("status=" +:+ status)))
      by (intros x; apply andb_diag).
    exact Hf.
Qed.

(** ** Well-formed stores *)

Lemma well_formed_insert (st : store) (l : loc) (it : iterator) :
  well_formed st -> stage_of it = None -> well_formed (<[l := it]> st).
Proof.
  intros Hwf Hit l' it' lines p Hl Hs.
  destruct (decide (l = l')) as [<- | Hne].
  - destruct (decide (l < length st)%nat) as [Hlt | Hge].
    + rewrite list_lookup_insert_eq in Hl by done. congruence.
    + rewrite list_insert_ge in Hl by lia. now apply (Hwf l it' lines p).
  - rewrite list_lookup_insert_ne in Hl by done. now apply (Hwf l' it' lines p).
Qed.

Lemma next_well_formed fuel : forall l st r st',
  next fuel l st = Some (r, st') -> well_formed st -> well_formed st'.
Proof.
  induction fuel as [| fuel IH]; intros l st r st' Hn Hwf; [discriminate |].
  simpl in Hn. destruct (st !! l) as [it |] eqn:Hl; [| discriminate].
  destruct it as [items pos | i n | lines status | lines needle |].
  - destruct (items !! pos); simplify_eq/=; [| done].
    now apply well_formed_insert.
  - case_bool_decide; simplify_eq/=; now apply well_formed_insert.
  - destruct (next fuel lines st) as [[[line |] st1] |] eqn:Hup; [| | done].
    + destruct (str_contains _ line); [simplify_eq/= |]; eauto.
    + simplify_eq/=. apply well_formed_insert; eauto.
  - destruct (next fuel lines st) as [[[line |] st1] |] eqn:Hup; [| | done].
    + destruct (str_contains _ line); [simplify_eq/= |]; eauto.
    + simplify_eq/=. apply well_formed_insert; eauto.
  - by simplify_eq/=.
Qed.

(** X14: in a store where every stage reads an iterator made before it,
    every iterator comes to an end: draining it yields a finite list of
    lines.  The empty store is such a store, each of the four calls that
    make an iterator keeps it one (a stage being given an existing
    iterator to read), and so does every [next]. *)
Theorem pipelines_terminate :
  (forall st l, well_formed st -> (l < length st)%nat ->
     exists xs st', yields st l xs st')
  /\ well_formed []
  /\ (forall st items, well_formed st -> well_formed (iter_list items st).2)
  /\ (forall st N, well_formed st -> well_formed (read_large_file N st).2)
  /\ (forall st lines status, well_formed st -> (lines < length st)%nat ->
        well_formed (filter_logs lines status st).2)
  /\ (forall st lines needle, well_formed st -> (lines < length st)%nat ->
        well_formed (search_logs lines needle st).2)
  /\ (forall st l r st', well_formed st -> pulls st l r st' -> well_formed st').
Proof.
  repeat split.
  - intros st l. apply well_formed_yields.
  - intros l it lines p Hl. discriminate.
  - intros st items Hwf. apply well_formed_alloc; [done | discriminate].
  - intros st N Hwf. apply well_formed_alloc; [done | discriminate].
  - intros st lines status Hwf Hlt. apply well_formed_alloc; [done |].
    intros ? ? [= <- _]. done.
  - intros st lines needle Hwf Hlt. apply well_formed_alloc; [done |].
    intros ? ? [= <- _]. done.
  - intros st l r st' Hwf [fuel Hn]. now apply (next_well_formed fuel l st r).
Qed.

Lemma pipelines_terminate_witness :
  exists xs st',
    yields [ReadLargeFile 0 3; SearchLogs 0%nat "1"; FilterLogs 1%nat "OK"]
           2%nat xs st'.
Proof.
  apply (proj1 pipelines_terminate
           [ReadLargeFile 0 3; SearchLogs 0%nat "1"; FilterLogs 1%nat "OK"]
           2%nat); [| simpl; lia].
  intros [| [| [| l]]] it lines p Hl Hs; simplify_eq/=; lia.
Defined.

(** ** The loop of the demo over any iterator *)

Lemma demo_loop_mono fuel : forall fuel' l i st r,
  demo_loop fuel l i st = Some r -> (fuel <= fuel')%nat ->
  demo_loop fuel' l i st = Some r.
Proof.
  induction fuel as [| fuel IH]; intros fuel' l i st r Hd Hle; [discriminate |].
  destruct fuel' as [| fuel']; [lia |]. simpl in *.
  destruct (next fuel l st) as [[[line |] st1] |] eqn:Hn; try done;
    rewrite (next_mono fuel fuel' _ _ _ Hn ltac:(lia)); [| done].
  case_bool_decide; [done |].
  destruct (demo_loop fuel l (i + 1) st1) as [[rest st2] |] eqn:Hr; [| done].
  now rewrite (IH fuel' _ _ _ _ Hr ltac:(lia)).
Qed.

Lemma demo_loop_prints n : forall l i st xs st',
  Z.to_nat (5 - i) = n -> yields st l xs st' ->
  exists fuel st'',
    demo_loop fuel l i st = Some (take n xs, st'')
    /\ takes st l (S n) (take (S n) xs) st''.
Proof.
  induction n as [| n IH]; intros l i st xs st' Hi Hy;
    apply yields_inv in Hy; destruct xs as [| x xs].
  - destruct Hy as [fuel Hn]. exists (S fuel), st'. split.
    + simpl. now rewrite Hn.
    + apply takes_S_stop. now exists fuel.
  - destruct Hy as (st1 & [fuel Hn] & _). exists (S fuel), st1. split.
    + simpl. rewrite Hn. now rewrite bool_decide_eq_true_2 by lia.
    + apply (takes_S_line _ _ _ _ st1); [now exists fuel | apply takes_O].
  - destruct Hy as [fuel Hn]. exists (S fuel), st'. split.
    + simpl. now rewrite Hn.
    + apply takes_S_stop. now exists fuel.
  - destruct Hy as (st1 & [f1 Hn] & Hy).
    destruct (IH l (i + 1) st1 xs st' ltac:(lia) Hy) as (f2 & st'' & Hd & Ht).
    exists (S (Nat.max f1 f2)), st''. split.
    + simpl. rewrite (next_mono f1 (Nat.max f1 f2) _ _ _ Hn ltac:(lia)).
      rewrite bool_decide_eq_false_2 by lia.
      now rewrite (demo_loop_mono f2 (Nat.max f1 f2) _ _ _ _ Hd ltac:(lia)).
    + apply (takes_S_line _ _ _ _ st1); [now exists f1 | done].
Qed.

(** X15: over any iterator that comes to an end, the loop of the demo
    prints the first five of its lines (all of them when there are
    fewer), and leaves the store as taking six lines does: it has pulled
    one line more than it prints, unless the iterator ended first. *)
Theorem demo_loop_first_five st logs xs st' :
  yields st logs xs st' ->
  exists fuel st'',
    demo_loop fuel logs 0 st = Some (take 5 xs, st'')
    /\ takes st logs 6 (take 6 xs) st''.
Proof. intros Hy. now apply (demo_loop_prints 5 logs 0 st xs st'). Qed.

Lemma demo_loop_first_five_witness :
  exists fuel st'',
    demo_loop fuel 1%nat 0
      [ListIterator ["a - status=OK"; "b - status=ERROR"; "c - status=OK"] 0;
       FilterLogs 0%nat "OK"]
    = Some (take 5 ["a - status=OK"; "c - status=OK"], st'')
    /\ takes
         [ListIterator ["a - status=OK"; "b - status=ERROR"; "c - status=OK"] 0;
          FilterLogs 0%nat "OK"] 1%nat 6
         (take 6 ["a - status=OK"; "c - status=OK"]) st''.
Proof.
  apply (demo_loop_first_five _ _ _
           [ListIterator ["a - status=OK"; "b - status=ERROR"; "c - status=OK"] 3;
            Exhausted]).
  exists 6%nat. vm_compute. reflexivity.
Defined.

(** ** The lines of the source *)

Lemma str_length_app (s t : string) :
  String.length (s +:+ t) = (String.length s + String.length t)%nat.
Proof.
  induction s as [| a s IH]; [done |]. rewrite str_app_cons. simpl. now rewrite IH.
Qed.

Lemma str_app_inj_r (s1 s2 t : string) : s1 +:+ t = s2 +:+ t -> s1 = s2.
Proof.
  revert s2. induction s1 as [| a s1 IH]; intros [| b s2] Heq;
    rewrite ?str_app_cons, ?str_app_empty in Heq; [done | | |].
  - apply (f_equal String.length) in Heq. simpl in Heq.
    rewrite str_length_app in Heq. lia.
  - apply (f_equal String.length) in Heq. simpl in Heq.
    rewrite str_length_app in Heq. lia.
  - injection Heq as -> Heq. f_equal. now apply IH.
Qed.

Lemma logline_inj (i j : Z) : logline i = logline j -> i = j.
Proof.
  unfold logline. intros Heq%(inj (String.app "logline "))%str_app_inj_r.
  now apply (inj pretty).
Qed.

(** X16: different indices give different lines, so [read_large_file]
    never yields the same line twice. *)
Theorem read_large_file_no_repeats (N : Z) (st : store) :
  (forall i j, logline i = logline j -> i = j)
  /\ (let '(g, st1) := read_large_file N st in
      exists xs st', yields st1 g xs st' /\ NoDup xs).
Proof.
  split; [apply logline_inj |]. unfold read_large_file, alloc.
  eexists _, _. split.
  - apply (yields_read_large_file (Z.to_nat (N - 0)) _ _ 0 N);
      [by apply list_lookup_middle | done].
  - assert (Hinj : Inj (=) (=) logline) by (intros i j; apply logline_inj).
    apply (NoDup_fmap_2 logline), NoDup_seqZ.
Qed.

Lemma exhausted_stays_exhausted_witness :
  pulls [Exhausted; Exhausted] 1%nat None [Exhausted; Exhausted].
Proof.
  apply (proj1 exhausted_stays_exhausted
           [ReadLargeFile 0 0; SearchLogs 0%nat "x"] 1%nat
           [Exhausted; Exhausted]).
  exists 2%nat. vm_compute. reflexivity.
Defined.

Lemma read_large_file_no_repeats_witness : (3 : Z) = 3.
Proof.
  apply (proj1 (read_large_file_no_repeats 0 []) 3 3). reflexivity.
Defined.

Lemma take_then_drain_witness :
  yields [ReadLargeFile 0 4] 0%nat
    ([logline 0; logline 1] ++ [logline 2; logline 3]) [Exhausted].
Proof.
  apply (take_then_drain 2 [ReadLargeFile 0 4] 0%nat [logline 0; logline 1]
           [ReadLargeFile 2 4] [logline 2; logline 3] [Exhausted]).
  - exists 1%nat. vm_compute. reflexivity.
  - exists 4%nat. vm_compute. reflexivity.
Defined.

Lemma search_logs_empty_needle_witness :
  exists st2,
    yields [ReadLargeFile 0 2; SearchLogs 0%nat ""] 1%nat
      [logline 0; logline 1] st2.
Proof.
  apply (search_logs_empty_needle [ReadLargeFile 0 2] 0%nat
           [logline 0; logline 1] [Exhausted]).
  exists 4%nat. vm_compute. reflexivity.
Defined.

Lemma stages_commute_witness :
  exists ys e1 e2,
    yields [ReadLargeFile 0 12; SearchLogs 0%nat "1"; FilterLogs 1%nat "OK"]
           2%nat ys e1
    /\ yields [ReadLargeFile 0 12; FilterLogs 0%nat "OK"; SearchLogs 1%nat "1"]
              2%nat ys e2.
Proof.
  apply (proj1 (stages_commute [ReadLargeFile 0 12] 0%nat "1" "OK"
                  (logline <$> seqZ 0 12) [Exhausted]
                  ltac:(exists 14%nat; vm_compute; reflexivity))).
Defined.

End PipelineFacts.

(** * Properties of [ImmutableConfig] *)

Module DataModelFacts.
Import DataModel.

Lemma list_insert_middle {X} (sa sb : list X) (x y : X) :
  <[length sa := y]> (sa ++ x :: sb) = sa ++ y :: sb.
Proof. induction sa as [| a sa IH]; simpl; [done | by rewrite IH]. Qed.

Lemma py_eq_refl (v : pyval) : py_eq v v = true.
Proof.
  destruct v as [| b | z | s]; simpl; try done;
    try destruct b; now rewrite bool_decide_eq_true_2.
Qed.

Section ImmutableConfig.
Variable repr_str : string -> string.

Local Abbreviation repr := (repr repr_str).
Local Abbreviation __setattr__ := (__setattr__ repr_str).
Local Abbreviation __new__ := (__new__ repr_str).
Local Abbreviation __init__ := (__init__ repr_str).
Local Abbreviation ImmutableConfig := (ImmutableConfig repr_str).
Local Abbreviation __repr__ := (__repr__ repr_str).
Local Abbreviation __eq__ := (__eq__ repr_str).

Local Abbreviation setattr_line := (setattr_line repr_str).
Local Abbreviation init_line := (init_line repr_str).
Local Abbreviation new_line := (new_line repr_str).

(** One assignment, by whether the lock lets it through. *)
Lemma setattr_allowed sa d sb reg out name value :
  locked d = false \/ name ∈ ["_locked"; "_instances"] ->
  __setattr__ (length sa) name value
    {| heap := sa ++ d :: sb; _instances := reg; stdout := out |}
  = (Returned tt,
     {| heap := sa ++ <[name := value]> d :: sb; _instances := reg;
        stdout := out ++ [setattr_line name value] |}).
Proof.
  intros Hok. unfold DataModel.__setattr__, bind, print, getattr_locked,
    object_setattr, obj_dict. simpl.
  rewrite list_lookup_middle by done. simpl. fold (locked d).
  destruct Hok as [Hl | Hin];
    [rewrite Hl | rewrite (bool_decide_eq_true_2 _ Hin), andb_false_r];
    simpl; rewrite list_lookup_middle by done; simpl;
    now rewrite list_insert_middle.
Qed.

Lemma setattr_refused sa d sb reg out name value :
  locked d = true -> name ∉ ["_locked"; "_instances"] ->
  __setattr__ (length sa) name value
    {| heap := sa ++ d :: sb; _instances := reg; stdout := out |}
  = (Raised (AttributeError ("ImmutableConfig: Cannot modify attribute '"
                             +:+ name +:+ "' after initialization")),
     {| heap := sa ++ d :: sb; _instances := reg;
        stdout := out ++ [setattr_line name value] |}).
Proof.
  intros Hl Hin. unfold DataModel.__setattr__, bind, print, getattr_locked,
    raise, obj_dict. simpl.
  rewrite list_lookup_middle by done. simpl. fold (locked d).
  now rewrite Hl, (bool_decide_eq_false_2 _ Hin).
Qed.

(** Running a sequence, one step at a time. *)
Lemma bind_returned {X Y} (m : M X) (k : X -> M Y) w x w' :
  m w = (Returned x, w') -> bind m k w = k x w'.
Proof. intros Hm. unfold bind. now rewrite Hm. Qed.

Lemma bind_raised {X Y} (m : M X) (k : X -> M Y) w e w' :
  m w = (Raised e, w') -> bind m k w = (Raised e, w').
Proof. intros Hm. unfold bind. now rewrite Hm. Qed.

Lemma getattr_locked_run sa d sb reg out :
  getattr_locked (length sa)
    {| heap := sa ++ d :: sb; _instances := reg; stdout := out |}
  = (Returned (default (PyBool false) (d !! "_locked")),
     {| heap := sa ++ d :: sb; _instances := reg; stdout := out |}).
Proof.
  unfold getattr_locked, obj_dict. simpl.
  now rewrite list_lookup_middle by done.
Qed.

Lemma getattr_run sa d sb reg out name v :
  d !! name = Some v ->
  getattr (length sa) name
    {| heap := sa ++ d :: sb; _instances := reg; stdout := out |}
  = (Returned v, {| heap := sa ++ d :: sb; _instances := reg; stdout := out |}).
Proof.
  intros Hd. unfold getattr, obj_dict. simpl.
  rewrite list_lookup_middle by done. simpl. now rewrite Hd.
Qed.

Lemma init_unlocked sa d sb reg out key value :
  locked d = false ->
  __init__ (length sa) key value
    {| heap := sa ++ d :: sb; _instances := reg; stdout := out |}
  = (Returned tt,
     {| heap := sa ++ <["_locked" := PyBool true]>
                        (<["value" := value]> (<["key" := PyStr key]> d)) :: sb;
        _instances := reg;
        stdout := out ++ [init_line key value; setattr_line "key" (PyStr key);
                          setattr_line "value" value;
                          setattr_line "_locked" (PyBool true)] |}).
Proof.
  intros Hl. unfold DataModel.__init__.
  erewrite bind_returned by reflexivity.
  erewrite bind_returned by apply getattr_locked_run.
  fold (locked d). rewrite Hl.
  erewrite bind_returned by (apply setattr_allowed; now left).
  erewrite bind_returned
    by (apply setattr_allowed; left; unfold locked in *;
        now rewrite lookup_insert_ne).
  rewrite setattr_allowed by (right; left).
  simpl. now rewrite <- !app_assoc.
Qed.

Lemma init_locked sa d sb reg out key value :
  locked d = true ->
  __init__ (length sa) key value
    {| heap := sa ++ d :: sb; _instances := reg; stdout := out |}
  = (Returned tt,
     {| heap := sa ++ d :: sb; _instances := reg;
        stdout := out ++ [init_line key value;
                          "ImmutableConfig.__init__ skipped (already initialized)"] |}).
Proof.
  intros Hl. unfold DataModel.__init__.
  erewrite bind_returned by reflexivity.
  erewrite bind_returned by apply getattr_locked_run.
  fold (locked d). rewrite Hl.
  unfold print. simpl. now rewrite <- app_assoc.
Qed.

Lemma new_fresh h reg out key value :
  reg !! key = None ->
  __new__ key value {| heap := h; _instances := reg; stdout := out |}
  = (Returned (length h),
     {| heap := h ++ [<["_locked" := PyBool false]> ∅];
        _instances := <[key := length h]> reg;
        stdout := out ++ [new_line key value;
                          setattr_line "_locked" (PyBool false)] |}).
Proof.
  intros Hreg. unfold DataModel.__new__.
  erewrite bind_returned by reflexivity.
  simpl. rewrite Hreg.
  erewrite bind_returned by reflexivity.
  erewrite bind_returned by (apply (setattr_allowed h ∅ []); now left).
  erewrite bind_returned by reflexivity.
  unfold ret. simpl. now rewrite <- app_assoc.
Qed.

Lemma new_registered h reg out key value obj :
  reg !! key = Some obj ->
  __new__ key value {| heap := h; _instances := reg; stdout := out |}
  = (Returned obj,
     {| heap := h; _instances := reg; stdout := out ++ [new_line key value] |}).
Proof.
  intros Hreg. unfold DataModel.__new__.
  erewrite bind_returned by reflexivity.
  simpl. now rewrite Hreg.
Qed.

(** The two ways a construction goes. *)
Lemma construct_fresh h reg out key value :
  reg !! key = None ->
  ImmutableConfig key value {| heap := h; _instances := reg; stdout := out |}
  = (Returned (length h),
     {| heap := h ++ [<["_locked" := PyBool true]>
                        (<["value" := value]>
                           (<["key" := PyStr key]>
                              (<["_locked" := PyBool false]> ∅)))];
        _instances := <[key := length h]> reg;
        stdout := out ++
          [new_line key value; setattr_line "_locked" (PyBool false);
           init_line key value; setattr_line "key" (PyStr key);
           setattr_line "value" value;
           setattr_line "_locked" (PyBool true)] |}).
Proof.
  intros Hreg. unfold DataModel.ImmutableConfig.
  erewrite bind_returned by (now apply new_fresh).
  erewrite bind_returned by (apply (init_unlocked h _ []); reflexivity).
  unfold ret. now rewrite <- app_assoc.
Qed.

Lemma construct_registered sa d sb reg out key value :
  reg !! key = Some (length sa) -> locked d = true ->
  ImmutableConfig key value
    {| heap := sa ++ d :: sb; _instances := reg; stdout := out |}
  = (Returned (length sa),
     {| heap := sa ++ d :: sb; _instances := reg;
        stdout := out ++
          [new_line key value; init_line key value;
           "ImmutableConfig.__init__ skipped (already initialized)"] |}).
Proof.
  intros Hreg Hl. unfold DataModel.ImmutableConfig.
  erewrite bind_returned by (apply new_registered; exact Hreg).
  erewrite bind_returned by (apply init_locked; exact Hl).
  unfold ret. now rewrite <- app_assoc.
Qed.

(** A heap seen from one of its objects. *)
Lemma heap_split (h : list (gmap string pyval)) obj d :
  h !! obj = Some d ->
  exists sa sb, h = sa ++ d :: sb /\ obj = length sa.
Proof.
  intros Hd. exists (take obj h), (drop (S obj) h). split.
  - now rewrite take_drop_middle.
  - rewrite length_take. apply lookup_lt_Some in Hd. lia.
Qed.

Lemma consistent_empty : consistent empty_world.
Proof. intros key obj Hreg. simpl in Hreg. by rewrite lookup_empty in Hreg. Qed.

Lemma consistent_stdout h reg out out' :
  consistent {| heap := h; _instances := reg; stdout := out |} ->
  consistent {| heap := h; _instances := reg; stdout := out' |}.
Proof. intros Hc key obj Hreg. exact (Hc key obj Hreg). Qed.

Lemma consistent_inj w k1 k2 obj :
  consistent w -> _instances w !! k1 = Some obj ->
  _instances w !! k2 = Some obj -> k1 = k2.
Proof.
  intros Hc H1 H2.
  destruct (Hc k1 obj H1) as (d1 & Hd1 & _ & Hk1 & _).
  destruct (Hc k2 obj H2) as (d2 & Hd2 & _ & Hk2 & _).
  congruence.
Qed.

(** What a construction does to a consistent state. *)
Lemma construct_consistent w key value :
  consistent w ->
  exists obj w', ImmutableConfig key value w = (Returned obj, w')
    /\ consistent w' /\ _instances w' !! key = Some obj
    /\ (forall k o, _instances w !! k = Some o ->
          _instances w' !! k = Some o /\ heap w' !! o = heap w !! o)
    /\ (forall o, _instances w !! key = Some o ->
          obj = o /\ heap w' = heap w /\ _instances w' = _instances w)
    /\ (_instances w !! key = None ->
          obj_dict w' obj !! "value" = Some value
          /\ heap w !! obj = None).
Proof.
  intros Hc. destruct w as [h reg out].
  destruct (reg !! key) as [obj |] eqn:Hreg.
  - destruct (Hc key obj Hreg) as (d & Hd & Hl & Hk & Hv). simpl in Hd.
    destruct (heap_split h obj d Hd) as (sa & sb & -> & ->).
    eexists _, _. split; [now apply construct_registered |].
    split; [now apply (consistent_stdout _ _ out) |].
    split; [done |]. split; [done |]. simpl.
    split; [intros o Ho; split; [congruence | done] | intros Hn; congruence].
  - eexists _, _. split; [now apply construct_fresh |]. simpl.
    split; [| split; [apply lookup_insert_eq
                     | split; [| split; [intros o Ho; congruence |]]]].
    + intros k o Hk. simpl in Hk.
      destruct (decide (key = k)) as [<- | Hne].
      * rewrite lookup_insert_eq in Hk. injection Hk as <-.
        eexists. split; [by apply list_lookup_middle |].
        repeat split; try done; by eexists.
      * rewrite lookup_insert_ne in Hk by done.
        destruct (Hc k o Hk) as (d & Hd & Hrest). exists d.
        split; [| done]. simpl in *. now apply lookup_app_l_Some.
    + intros k o Hk. assert (key <> k) by congruence.
      rewrite lookup_insert_ne by done. split; [done |].
      destruct (Hc k o Hk) as (d & Hd & _). simpl in Hd.
      rewrite Hd. now apply lookup_app_l_Some.
    + intros _. unfold obj_dict. simpl.
      rewrite list_lookup_middle by done. split; [done |].
      now apply lookup_ge_None_2.
Qed.

(** X17: the class hands out one object per key.  In a consistent state
    (every registered object is locked and carries its key), two
    constructions with the same key return the same object, and the
    second changes neither an object nor the registry: its value is
    ignored.  When the key was new, the value kept is the first one. *)
Theorem config_singleton (w : world) (key : string) (v1 v2 : pyval) :
  consistent w ->
  exists obj w1 w2,
    ImmutableConfig key v1 w = (Returned obj, w1)
    /\ ImmutableConfig key v2 w1 = (Returned obj, w2)
    /\ heap w2 = heap w1 /\ _instances w2 = _instances w1
    /\ (_instances w !! key = None ->
        obj_dict w2 obj !! "value" = Some v1).
Proof.
  intros Hc.
  destruct (construct_consistent w key v1 Hc)
    as (obj & w1 & H1 & Hc1 & Hreg1 & _ & _ & Hnew).
  destruct (construct_consistent w1 key v2 Hc1)
    as (obj' & w2 & H2 & _ & _ & _ & Hsame & _).
  destruct (Hsame obj Hreg1) as (-> & Hh & Hr).
  exists obj, w1, w2. repeat split; try done.
  intros Hfresh. destruct (Hnew Hfresh) as [Hv _].
  unfold obj_dict in *. now rewrite Hh.
Qed.

(** X18: consistency is an invariant of construction, and under it the
    registry gives one object per key and one key per object: from the
    empty state, every construction returns normally, registers its key
    for the object it returns, leaves the other objects and registrations
    as they were, and a new key gets an object that did not exist. *)
Theorem config_registry_invariant :
  consistent empty_world
  /\ (forall w key value, consistent w ->
        exists obj w', ImmutableConfig key value w = (Returned obj, w')
          /\ consistent w' /\ _instances w' !! key = Some obj
          /\ (forall k o, _instances w !! k = Some o ->
                _instances w' !! k = Some o /\ heap w' !! o = heap w !! o)
          /\ (_instances w !! key = None -> heap w !! obj = None))
  /\ (forall w k1 k2 obj, consistent w ->
        _instances w !! k1 = Some obj -> _instances w !! k2 = Some obj ->
        k1 = k2).
Proof.
  split; [apply consistent_empty |]. split; [| apply consistent_inj].
  intros w key value Hc.
  destruct (construct_consistent w key value Hc)
    as (obj & w' & H1 & Hc1 & Hreg1 & Hold & _ & Hnew).
  exists obj, w'. split; [done |]. split; [done |]. split; [done |].
  split; [exact Hold |]. intros Hf. now apply Hnew.
Qed.

(** X19: a registered object of a consistent state cannot be given or
    have changed any attribute but [_locked] and [_instances]: the
    assignment raises [AttributeError] naming the attribute, and no
    object and no registration changes. *)
Theorem config_immutable (w : world) (key : string) (obj : nat)
    (name : string) (value : pyval) :
  consistent w -> _instances w !! key = Some obj ->
  name ∉ ["_locked"; "_instances"] ->
  exists w',
    __setattr__ obj name value w
    = (Raised (AttributeError ("ImmutableConfig: Cannot modify attribute '"
                               +:+ name +:+ "' after initialization")), w')
    /\ heap w' = heap w /\ _instances w' = _instances w.
Proof.
  intros Hc Hreg Hname. destruct w as [h reg out].
  destruct (Hc key obj Hreg) as (d & Hd & Hl & _). simpl in Hd.
  destruct (heap_split h obj d Hd) as (sa & sb & -> & ->).
  eexists. split; [now apply setattr_refused |]. done.
Qed.

(** X20: the lock is an attribute like another.  On a registered object
    of a consistent state, [obj._locked = False] goes through, after
    which any attribute can be assigned; and the next construction with
    the object's key initializes it again, with the new value, and locks
    it. *)
Theorem config_lock_can_be_lifted (w : world) (key : string) (obj : nat)
    (name : string) (value v2 : pyval) :
  consistent w -> _instances w !! key = Some obj -> name <> "_locked" ->
  exists w1,
    (__setattr__ obj "_locked" (PyBool false) ;;;
     __setattr__ obj name value) w = (Returned tt, w1)
    /\ obj_dict w1 obj !! name = Some value
    /\ exists w2,
         ImmutableConfig key v2 w1 = (Returned obj, w2)
         /\ obj_dict w2 obj !! "value" = Some v2
         /\ obj_dict w2 obj !! "key" = Some (PyStr key)
         /\ locked (obj_dict w2 obj) = true.
Proof.
  intros Hc Hreg Hname. destruct w as [h reg out].
  destruct (Hc key obj Hreg) as (d & Hd & Hl & _). simpl in Hd, Hreg.
  destruct (heap_split h obj d Hd) as (sa & sb & -> & ->).
  eexists. split.
  { erewrite bind_returned by (apply setattr_allowed; right; left).
    apply setattr_allowed. left. unfold locked. now rewrite lookup_insert_eq. }
  split.
  { unfold obj_dict. simpl. rewrite list_lookup_middle by done. simpl.
    apply lookup_insert_eq. }
  eexists. split.
  { unfold DataModel.ImmutableConfig.
    erewrite bind_returned by (apply new_registered; exact Hreg).
    erewrite bind_returned.
    2:{ apply init_unlocked. unfold locked.
        rewrite lookup_insert_ne by done. now rewrite lookup_insert_eq. }
    reflexivity. }
  unfold obj_dict, locked. simpl. rewrite list_lookup_middle by done. simpl.
  repeat split.
  - rewrite lookup_insert_ne by done. apply lookup_insert_eq.
  - do 2 (rewrite lookup_insert_ne by done). apply lookup_insert_eq.
  - now rewrite lookup_insert_eq.
Qed.

Lemma getattr_at w obj d name v :
  heap w !! obj = Some d -> d !! name = Some v ->
  getattr obj name w = (Returned v, w).
Proof.
  intros Hd Hv. unfold getattr, obj_dict. rewrite Hd. simpl. now rewrite Hv.
Qed.

Lemma repr_at w obj d k v :
  heap w !! obj = Some d -> d !! "key" = Some k -> d !! "value" = Some v ->
  __repr__ obj w
  = (Returned ("<ImmutableConfig key=" +:+ repr k +:+ " value=" +:+ repr v
               +:+ "> brbr"), w).
Proof.
  intros Hd Hk Hv. unfold DataModel.__repr__.
  erewrite bind_returned by (eapply getattr_at; eassumption).
  erewrite bind_returned by (eapply getattr_at; eassumption).
  reflexivity.
Qed.

(** X21: on the registered objects of a consistent state, [==] is
    identity: [__eq__] returns [True] for an object and itself and
    [False] for two different objects, since they carry different keys;
    asked about a value that is no [ImmutableConfig] it returns
    [NotImplemented].  It only prints. *)
Theorem config_eq_is_identity (w : world) (k1 k2 : string) (o1 o2 : nat) :
  consistent w ->
  _instances w !! k1 = Some o1 -> _instances w !! k2 = Some o2 ->
  (exists line,
     __eq__ o1 (Config o2) w
     = (Returned (EqBool (bool_decide (o1 = o2))),
        {| heap := heap w; _instances := _instances w;
           stdout := stdout w ++ [line] |}))
  /\ (forall v, exists line,
     __eq__ o1 (Plain v) w
     = (Returned NotImplemented,
        {| heap := heap w; _instances := _instances w;
           stdout := stdout w ++ [line] |})).
Proof.
  intros Hc H1 H2.
  destruct (Hc k1 o1 H1) as (d1 & Hd1 & _ & Hk1 & [v1 Hv1]).
  destruct (Hc k2 o2 H2) as (d2 & Hd2 & _ & Hk2 & [v2 Hv2]).
  split.
  - assert (Hkeys : k1 = k2 <-> o1 = o2).
    { split; intros ->; congruence. }
    case_bool_decide as Ho; eexists; unfold DataModel.__eq__;
      (erewrite bind_returned by (eapply repr_at; eassumption));
      (erewrite bind_returned by (eapply repr_at; eassumption));
      (erewrite bind_returned by reflexivity);
      (erewrite bind_returned by (eapply getattr_at; [exact Hd1 | exact Hk1]));
      (erewrite bind_returned by (eapply getattr_at; [exact Hd2 | exact Hk2]));
      simpl.
    + rewrite bool_decide_eq_true_2 by tauto.
      subst o2. assert (v1 = v2) as -> by congruence.
      erewrite bind_returned by (eapply getattr_at; [exact Hd1 | exact Hv1]).
      erewrite bind_returned by (eapply getattr_at; [exact Hd1 | exact Hv1]).
      unfold ret. now rewrite py_eq_refl.
    + rewrite bool_decide_eq_false_2 by tauto. reflexivity.
  - intros v. eexists. unfold DataModel.__eq__.
    erewrite bind_returned by (eapply repr_at; eassumption).
    erewrite bind_returned by reflexivity.
    erewrite bind_returned by reflexivity.
    reflexivity.
Qed.

End ImmutableConfig.

(** ** [CustomCollection] *)

Lemma py_eq_norm (a b : pyval) : py_eq a b = bool_decide (norm a = norm b).
Proof.
  destruct a as [| [] | x | s], b as [| [] | y | t]; simpl; try done;
    apply bool_decide_ext; naive_solver.
Qed.

Lemma py_eq_true (a b : pyval) : py_eq a b = true <-> norm a = norm b.
Proof. rewrite py_eq_norm. apply bool_decide_eq_true. Qed.

Lemma py_eq_false (a b : pyval) : py_eq a b = false <-> norm a <> norm b.
Proof. rewrite py_eq_norm. apply bool_decide_eq_false. Qed.

Lemma dict_get_set (d : dict) (k v k' : pyval) :
  dict_get (dict_set d k v) k'
  = if py_eq k k' then Some v else dict_get d k'.
Proof.
  induction d as [| [k0 v0] d IH]; simpl; [done |].
  destruct (py_eq k0 k) eqn:H0; simpl.
  - apply py_eq_true in H0. rewrite !(py_eq_norm _ k'), H0.
    now case_bool_decide.
  - rewrite IH. apply py_eq_false in H0. rewrite !(py_eq_norm _ k').
    repeat case_bool_decide; congruence.
Qed.

Lemma dict_get_norm (d : dict) (k k' : pyval) :
  norm k = norm k' -> dict_get d k = dict_get d k'.
Proof.
  intros Hn. induction d as [| [k0 v0] d IH]; simpl; [done |].
  now rewrite !(py_eq_norm k0), Hn, IH.
Qed.

Lemma dict_set_keys (d : dict) (k v : pyval) :
  (dict_set d k v).*1
  = match dict_get d k with
    | Some _ => d.*1
    | None => d.*1 ++ [k]
    end.
Proof.
  induction d as [| [k0 v0] d IH]; [done |]. cbn [dict_set dict_get].
  destruct (py_eq k0 k); rewrite !fmap_cons; [done |]. rewrite IH.
  now destruct (dict_get d k).
Qed.

Lemma dict_set_distinct (d : dict) (k v : pyval) :
  distinct_keys d -> distinct_keys (dict_set d k v).
Proof.
  induction d as [| [k0 v0] d IH]; simpl; [done |]. intros [Hk0 Hd].
  destruct (py_eq k0 k) eqn:H0; simpl; [done |].
  split; [| by apply IH]. rewrite dict_get_set.
  rewrite py_eq_norm. rewrite py_eq_false in H0.
  rewrite bool_decide_eq_false_2 by congruence. done.
Qed.

Lemma dict_of_fold (pairs : list (pyval * pyval)) : forall d k,
  dict_get (foldl (fun d '(k, v) => dict_set d k v) d pairs) k
  = match dict_get (reverse pairs) k with
    | Some v => Some v
    | None => dict_get d k
    end.
Proof.
  induction pairs as [| [k0 v0] pairs IH]; intros d k; simpl; [done |].
  rewrite IH, dict_get_set, reverse_cons.
  assert (Happ : forall l1 l2 : dict,
            dict_get (l1 ++ l2) k
            = match dict_get l1 k with
              | Some v => Some v
              | None => dict_get l2 k
              end).
  { intros l1 l2. induction l1 as [| [k1 v1] l1 IH1]; simpl; [done |].
    now destruct (py_eq k1 k). }
  rewrite Happ. simpl.
  destruct (dict_get (reverse pairs) k); [done |]. now destruct (py_eq k0 k).
Qed.

Lemma fold_distinct (pairs : list (pyval * pyval)) : forall d,
  distinct_keys d ->
  distinct_keys (foldl (fun d '(k, v) => dict_set d k v) d pairs).
Proof.
  induction pairs as [| [k0 v0] pairs IH]; intros d Hd; simpl; [done |].
  now apply IH, dict_set_distinct.
Qed.

Section CustomCollection.
Variable repr_str : string -> string.
Variable repr_iterator : string.

Local Abbreviation __getitem__ := (__getitem__ repr_str).
Local Abbreviation __setitem__ := (__setitem__ repr_str).
Local Abbreviation __iter__ := (__iter__ repr_iterator).

(** X22: what is stored under a key is what comes back under every key
    equal to it, and nothing else changes: after [coll[k] = v], reading
    [coll[k']] gives [v] when [k == k'] and otherwise ends exactly as it
    did before the assignment, the [KeyError] of a missing key included. *)
Theorem collection_set_then_get (_store : dict) (k v k' : pyval) :
  (__getitem__ k' (__setitem__ k v _store).1.2).1.1
  = if py_eq k k' then Returned v else (__getitem__ k' _store).1.1.
Proof.
  unfold DataModel.__getitem__, DataModel.__setitem__. simpl.
  rewrite dict_get_set. destruct (py_eq k k'); [done |].
  now destruct (dict_get _store k').
Qed.

(** X23: [len] counts the keys that iteration goes through, before and
    after any assignment.  Assigning under a key the collection has
    leaves the keys and their order as they are; assigning under a new
    key adds it after all others, and [len] grows by one.  No two keys
    of the collection ever become equal. *)
Theorem collection_len_and_order (_store : dict) (k v : pyval) :
  let after := (__setitem__ k v _store).1.2 in
  (__len__ after).1.1 = Returned (Z.of_nat (length (fst <$> after)))
  /\ (__iter__ after).1.1
     = Returned (match dict_get _store k with
                 | Some _ => fst <$> _store
                 | None => (fst <$> _store) ++ [k]
                 end)
  /\ (__len__ after).1.1
     = Returned (match dict_get _store k with
                 | Some _ => Z.of_nat (length _store)
                 | None => Z.of_nat (length _store) + 1
                 end)
  /\ (distinct_keys _store -> distinct_keys after).
Proof.
  simpl. unfold DataModel.__len__, DataModel.__iter__. simpl.
  rewrite length_fmap. split; [done |]. split; [now rewrite dict_set_keys |].
  split; [| apply dict_set_distinct].
  rewrite <- (length_fmap fst (dict_set _store k v)), dict_set_keys.
  destruct (dict_get _store k); rewrite ?length_app, length_fmap; simpl;
    f_equal; lia.
Qed.

(** X24: a collection made from pairs holds, under each key, the value
    of the last pair with an equal key, and raises [KeyError] for a key
    no pair has; its keys are pairwise different.  Made from [None] or
    from no pair at all it is empty, and every read raises [KeyError]. *)
Theorem collection_from_pairs (initial : option (list (pyval * pyval)))
    (k : pyval) :
  let _store := CustomCollection initial in
  distinct_keys _store
  /\ (__getitem__ k _store).1.1
     = match dict_get (reverse (default [] initial)) k with
       | Some v => Returned v
       | None =>
         Raised {| exc_mro := ["KeyError"; "LookupError"; "Exception";
                                "BaseException"; "object"];
                   exc_str := repr repr_str k |}
       end
  /\ (__getitem__ k _store).1.2 = _store.
Proof.
  simpl. unfold DataModel.__getitem__.
  assert (Hstore : CustomCollection initial = dict_of (default [] initial)).
  { destruct initial as [[| p pairs] |]; reflexivity. }
  rewrite Hstore. unfold dict_of. rewrite dict_of_fold. simpl.
  split; [now apply fold_distinct |].
  destruct (dict_get (reverse (default [] initial)) k); done.
Qed.

End CustomCollection.

(** ** The demo *)

Lemma config_singleton_witness :
  exists obj w1 w2,
    ImmutableConfig quoted "API_URL" (PyStr "https://example.org") empty_world
    = (Returned obj, w1)
    /\ ImmutableConfig quoted "API_URL" (PyStr "ignored-value") w1
       = (Returned obj, w2)
    /\ heap w2 = heap w1 /\ _instances w2 = _instances w1
    /\ (_instances empty_world !! "API_URL" = None ->
        obj_dict w2 obj !! "value" = Some (PyStr "https://example.org")).
Proof.
  apply (config_singleton quoted empty_world "API_URL"
           (PyStr "https://example.org") (PyStr "ignored-value")).
  intros key obj Hreg. simpl in Hreg. by rewrite lookup_empty in Hreg.
Defined.

Lemma demo_world_eq :
  demo_world
  = {| heap := [<["_locked" := PyBool true]>
                  (<["value" := PyStr "https://example.org"]>
                     (<["key" := PyStr "API_URL"]>
                        (<["_locked" := PyBool false]> ∅)))];
       _instances := <["API_URL" := 0%nat]> ∅;
       stdout :=
         [new_line quoted "API_URL" (PyStr "https://example.org");
          setattr_line quoted "_locked" (PyBool false);
          init_line quoted "API_URL" (PyStr "https://example.org");
          setattr_line quoted "key" (PyStr "API_URL");
          setattr_line quoted "value" (PyStr "https://example.org");
          setattr_line quoted "_locked" (PyBool true)] |}.
Proof.
  unfold demo_world, empty_world.
  now rewrite (construct_fresh quoted [] ∅ [] "API_URL"
                 (PyStr "https://example.org") (lookup_empty _)).
Qed.

Lemma demo_world_registry : _instances demo_world !! "API_URL" = Some 0%nat.
Proof. rewrite demo_world_eq. apply lookup_insert_eq. Qed.

Lemma demo_world_consistent : consistent demo_world.
Proof.
  rewrite demo_world_eq. intros key obj Hreg. simpl in Hreg.
  apply lookup_insert_Some in Hreg as [[<- <-] | [_ Hreg]];
    [| by rewrite lookup_empty in Hreg].
  eexists. split; [reflexivity |]. unfold locked.
  rewrite lookup_insert_eq. split; [done |].
  split; [| eexists];
    repeat (rewrite lookup_insert_ne by done); apply lookup_insert_eq.
Qed.

Lemma config_registry_invariant_witness :
  exists obj w',
    ImmutableConfig quoted "DB_URL" (PyStr "postgres://db") demo_world
    = (Returned obj, w')
    /\ consistent w' /\ _instances w' !! "DB_URL" = Some obj
    /\ (forall k o, _instances demo_world !! k = Some o ->
          _instances w' !! k = Some o /\ heap w' !! o = heap demo_world !! o)
    /\ (_instances demo_world !! "DB_URL" = None ->
        heap demo_world !! obj = None).
Proof.
  apply (proj1 (proj2 (config_registry_invariant quoted))).
  exact demo_world_consistent.
Defined.

Lemma config_immutable_witness :
  exists w',
    __setattr__ quoted 0%nat "value"
      (PyStr "I want to change? is it allowed?") demo_world
    = (Raised (AttributeError ("ImmutableConfig: Cannot modify attribute '"
                               +:+ "value" +:+ "' after initialization")), w')
    /\ heap w' = heap demo_world /\ _instances w' = _instances demo_world.
Proof.
  apply (config_immutable quoted demo_world "API_URL" 0%nat "value"
           (PyStr "I want to change? is it allowed?"));
    [exact demo_world_consistent | exact demo_world_registry |].
  rewrite !not_elem_of_cons. repeat split; try discriminate.
  apply not_elem_of_nil.
Defined.

Lemma config_lock_can_be_lifted_witness :
  exists w1,
    bind (__setattr__ quoted 0%nat "_locked" (PyBool false))
         (fun _ => __setattr__ quoted 0%nat "value" (PyStr "changed"))
         demo_world = (Returned tt, w1)
    /\ obj_dict w1 0%nat !! "value" = Some (PyStr "changed")
    /\ exists w2,
         ImmutableConfig quoted "API_URL" (PyStr "again") w1
         = (Returned 0%nat, w2)
         /\ obj_dict w2 0%nat !! "value" = Some (PyStr "again")
         /\ obj_dict w2 0%nat !! "key" = Some (PyStr "API_URL")
         /\ locked (obj_dict w2 0%nat) = true.
Proof.
  apply (config_lock_can_be_lifted quoted demo_world "API_URL" 0%nat "value"
           (PyStr "changed") (PyStr "again"));
    [exact demo_world_consistent | exact demo_world_registry | discriminate].
Defined.

Lemma config_eq_is_identity_witness :
  exists line,
    __eq__ quoted 0%nat (Config 0%nat) demo_world
    = (Returned (EqBool (bool_decide (0%nat = 0%nat))),
       {| heap := heap demo_world; _instances := _instances demo_world;
          stdout := stdout demo_world ++ [line] |}).
Proof.
  apply (proj1 (config_eq_is_identity quoted demo_world "API_URL" "API_URL"
                  0%nat 0%nat demo_world_consistent demo_world_registry
                  demo_world_registry)).
Defined.

Lemma collection_len_and_order_witness :
  distinct_keys
    (__setitem__ quoted (PyStr "c") (PyInt 3)
       [(PyStr "a", PyInt 1); (PyStr "b", PyInt 2)]).1.2.
Proof.
  apply (proj2 (proj2 (proj2
           (collection_len_and_order quoted "<dict_keyiterator>"
              [(PyStr "a", PyInt 1); (PyStr "b", PyInt 2)]
              (PyStr "c") (PyInt 3))))).
  simpl. repeat split; reflexivity.
Defined.

End DataModelFacts.
